(** * MySQL dialect of sequelize: query generator and query interface

    A shallow embedding of [lib/dialects/mysql/query-generator.js] and
    [lib/dialects/mysql/query-interface.js], with the properties of the
    generator, of its expression tokenizer and of the three orchestrated
    schema operations.

    Conventions of the embedding.
    - A JavaScript string is a list of code units.  The development keeps
      to code units below 256, so a code unit is an [ascii]; in that range
      the white space of [\s] is 9-13, 32 and 160, and the line terminators
      excluded by [.] are 10 and 13.
    - A function that can throw returns a [result]: [Ok v] or [Throw e].
    - A JavaScript object used as a record is a Rocq record; one used as a
      map is a [gmap] when only lookups matter and an association list when
      the enumeration order is observable. *)

From Stdlib Require Import List Ascii String ZArith NArith Bool Arith Lia.
From Stdlib Require Import DecimalString.
From stdpp Require Import base option gmap strings.
Import ListNotations.

Set Default Proof Using "Type".
Local Open Scope list_scope.
Local Open Scope nat_scope.

(** Text: a JavaScript string as its list of code units. *)
Abbreviation text := (list ascii).

(** A literal: [txt "abc"] is the text [a; b; c]. *)
Definition txt (s : string) : text := list_ascii_of_string s.

(** The double quote (code unit 34). *)
Definition dquote : ascii := ascii_of_nat 34.

(* ================================================================== *)
(** * JavaScript values, errors and string primitives *)
(* ================================================================== *)

Module Js.

(** The values a dynamically typed argument can hold.  A number is an
    integral number; [JsNaN] is the one non-integral number that matters
    for truthiness. *)
#[warning="-register-all"]
Inductive JsValue : Type :=
| JsUndefined
| JsNull
| JsBoolean (b : bool)
| JsNumber (z : Z)
| JsNaN
| JsString (s : text)
| JsArray (items : list JsValue)
| JsObject (props : list (string * JsValue)).

(** A table argument: a name, or an object with a [tableName] property
    and an optional [schema]. *)
Inductive TableRef : Type :=
| TableString (name : text)
| TableObject (tableName : TableRef) (schema : option text).

(** What a [throw] carries.  [Error] is the plain [new Error(message)];
    [UnknownConstraintError] is sequelize's error class with its
    [constraint] and [table] fields; [TypeError] is raised by the runtime
    itself (a property read on [null]); [ExecutionError] is a rejection
    coming from the statement channel. *)
Inductive JsError : Type :=
| Error (message : text)
| TypeError (message : text)
| UnknownConstraintError (message constraint : text) (table : TableRef)
| ExecutionError (message : text).

Inductive result (A : Type) : Type :=
| Ok (v : A)
| Throw (e : JsError).
Arguments Ok {A} v.
Arguments Throw {A} e.

Definition rbind {A B} (r : result A) (f : A -> result B) : result B :=
  match r with Ok v => f v | Throw e => Throw e end.

(** [typeof v == 'string'], which is what [_.isString] tests on the
    values of [JsValue]. *)
Definition isString (v : JsValue) : bool :=
  match v with JsString _ => true | _ => false end.

(** [_.isArray]. *)
Definition isArray (v : JsValue) : bool :=
  match v with JsArray _ => true | _ => false end.


(** ToBoolean: [undefined], [null], [false], [0], [NaN] and the empty
    string are falsy, everything else is truthy. *)
Definition truthy (v : JsValue) : bool :=
  match v with
  | JsUndefined | JsNull | JsNaN => false
  | JsBoolean b => b
  | JsNumber z => negb (Z.eqb z 0)
  | JsString s => match s with [] => false | _ => true end
  | JsArray _ | JsObject _ => true
  end.

(** Truthiness of a string: non-empty. *)
Definition nonempty (s : text) : bool :=
  match s with [] => false | _ => true end.

Definition code (a : ascii) : nat := nat_of_ascii a.

Definition ascii_eqb (a b : ascii) : bool := Ascii.eqb a b.

Fixpoint text_eqb (s t : text) : bool :=
  match s, t with
  | [], [] => true
  | a :: s', b :: t' => ascii_eqb a b && text_eqb s' t'
  | _, _ => false
  end.

(** [t] is a prefix of [s]. *)
Fixpoint starts_with (t s : text) : bool :=
  match t, s with
  | [], _ => true
  | a :: t', b :: s' => ascii_eqb a b && starts_with t' s'
  | _ :: _, [] => false
  end.

(** [s.indexOf(t)]: the least index at which [t] occurs, [None] for -1. *)
Fixpoint indexOf (s t : text) : option nat :=
  if starts_with t s then Some 0
  else match s with
       | [] => None
       | _ :: s' => option_map S (indexOf s' t)
       end.

(** [_.includes(s, t)] on a string [s]: [s.indexOf(t) > -1]. *)
Definition includes (s t : text) : bool :=
  match indexOf s t with Some _ => true | None => false end.

(** [s.substr(i)] for [0 <= i]: the text from index [i] on. *)
Definition substr (s : text) (i : nat) : text := skipn i s.

(** [s.substr(0, n)]. *)
Definition substr0 (s : text) (n : nat) : text := firstn n s.

(** [arr.join(sep)] on an array of strings. *)
Fixpoint join (sep : text) (l : list text) : text :=
  match l with
  | [] => []
  | [x] => x
  | x :: rest => x ++ sep ++ join sep rest
  end.

(** [s.split(c)] for a one-character separator: the pieces between the
    separators, empty pieces included; never the empty array. *)
Fixpoint split (c : ascii) (s : text) : list text :=
  match s with
  | [] => [[]]
  | a :: s' =>
      if ascii_eqb a c then [] :: split c s'
      else match split c s' with
           | [] => [[a]]
           | p :: ps => (a :: p) :: ps
           end
  end.

(** ASCII letters; [toUpperCase] on them.  Code units from 128 on are
    left alone: JavaScript sends them to code units from 128 on, so no
    comparison with an ASCII literal is affected. *)
Definition is_lower (a : ascii) : bool := (97 <=? code a) && (code a <=? 122).
Definition is_upper (a : ascii) : bool := (65 <=? code a) && (code a <=? 90).
Definition upper (a : ascii) : ascii :=
  if is_lower a then ascii_of_nat (code a - 32) else a.
Definition lower (a : ascii) : ascii :=
  if is_upper a then ascii_of_nat (code a + 32) else a.
Definition toUpperCase (s : text) : text := map upper s.

Definition is_digit (a : ascii) : bool := (48 <=? code a) && (code a <=? 57).
Definition is_word (a : ascii) : bool :=
  is_lower a || is_upper a || is_digit a || (code a =? 95).
Definition is_space (a : ascii) : bool :=
  ((9 <=? code a) && (code a <=? 13)) || (code a =? 32) || (code a =? 160).
Definition is_line_terminator (a : ascii) : bool :=
  (code a =? 10) || (code a =? 13).

End Js.
Export Js.

(* ================================================================== *)
(** * Regular expressions as the source writes them *)
(* ================================================================== *)

Module Regex.

(** One member of a character class. *)
Inductive citem : Type :=
| CChar (c : ascii)
| CRange (lo hi : ascii)
| CDigit        (* \d *)
| CWord         (* \w *)
| CSpace.       (* \s *)

(** The syntax the regular expressions of the two source files use.
    Quantifiers are greedy. [Group n r] is the [n]-th capturing group;
    a non-capturing group is plain nesting. *)
Inductive regex : Type :=
| Eps
| Bol                                   (* ^ *)
| Eol                                   (* $ *)
| Any                                   (* . *)
| Cls (neg : bool) (items : list citem) (* [...] and [^...] *)
| Seq (r1 r2 : regex)
| Alt (r1 r2 : regex)
| Star (r : regex)
| Group (n : nat) (r : regex)
| Backref (n : nat)
| NegLook (r : regex).                  (* (?!r) *)

Definition Chr (c : ascii) : regex := Cls false [CChar c].
Definition Plus (r : regex) : regex := Seq r (Star r).
Definition Opt (r : regex) : regex := Alt r Eps.
(** [r{0,2}] and [r{2}]. *)
Definition UpTo2 (r : regex) : regex := Opt (Seq r (Opt r)).
Definition Twice (r : regex) : regex := Seq r r.
(** A literal run of characters. *)
Fixpoint Lit (s : text) : regex :=
  match s with
  | [] => Eps
  | [a] => Chr a
  | a :: s' => Seq (Chr a) (Lit s')
  end.
Fixpoint Seqs (rs : list regex) : regex :=
  match rs with
  | [] => Eps
  | [r] => r
  | r :: rs' => Seq r (Seqs rs')
  end.
Fixpoint Alts (rs : list regex) : regex :=
  match rs with
  | [] => Eps
  | [r] => r
  | r :: rs' => Alt r (Alts rs')
  end.

(** The captures so far, most recent binding first. *)
Definition caps : Type := list (nat * text).

Fixpoint cap (c : caps) (n : nat) : option text :=
  match c with
  | [] => None
  | (m, t) :: c' => if m =? n then Some t else cap c' n
  end.

(** [$n] in a replacement string: the capture, empty when unset. *)
Definition cap_text (c : caps) (n : nat) : text :=
  match cap c n with Some t => t | None => [] end.

Section Engine.

(** The [i] flag and the length of the whole subject string. *)
Variable icase : bool.
Variable total : nat.

(** Canonicalize of the specification of [RegExp]: upper-casing under
    the [i] flag. *)
Definition canon (a : ascii) : ascii := if icase then upper a else a.

Definition in_item (it : citem) (a : ascii) : bool :=
  match it with
  | CChar c => ascii_eqb (canon c) (canon a)
  | CRange lo hi =>
      let inr x := (code lo <=? code x) && (code x <=? code hi) in
      if icase then inr a || inr (upper a) || inr (lower a) else inr a
  | CDigit => is_digit a
  | CWord => is_word a
  | CSpace => is_space a
  end.

Definition in_class (items : list citem) (a : ascii) : bool :=
  existsb (fun it => in_item it a) items.

Fixpoint starts_with_canon (t s : text) : bool :=
  match t, s with
  | [], _ => true
  | a :: t', b :: s' => ascii_eqb (canon a) (canon b) && starts_with_canon t' s'
  | _ :: _, [] => false
  end.

Definition cont : Type := caps -> text -> option (caps * text).

(** The greedy loop of [r*], [body] being the matcher of [r]: an
    iteration that consumes nothing is rejected, as the language
    specification has it; an iteration therefore shortens the subject,
    and [fuel] = [length s] iterations are all that can happen. *)
Fixpoint star_loop (body : cont -> caps -> text -> option (caps * text))
    (k : cont) (fuel : nat) (c : caps) (s : text) {struct fuel}
  : option (caps * text) :=
  match fuel with
  | O => k c s
  | S fuel' =>
      match body (fun c' s' =>
                    if length s' <? length s then star_loop body k fuel' c' s'
                    else None) c s with
      | Some res => Some res
      | None => k c s
      end
  end.

(** The backtracking matcher, in continuation-passing style: [rx r k c s]
    matches [r] at the front of [s] under captures [c] and hands what is
    left to [k]; when [k] fails the matcher tries its next choice.  No
    pattern of the two source files has a capturing group under a
    quantifier, so the clearing of such groups at each iteration is
    left out. *)
Fixpoint rx (r : regex) (k : cont) (c : caps) (s : text) {struct r}
  : option (caps * text) :=
  match r with
  | Eps => k c s
  | Bol => if length s =? total then k c s else None
  | Eol => match s with [] => k c s | _ :: _ => None end
  | Any =>
      match s with
      | a :: s' => if is_line_terminator a then None else k c s'
      | [] => None
      end
  | Cls neg items =>
      match s with
      | a :: s' => if xorb neg (in_class items a) then k c s' else None
      | [] => None
      end
  | Seq r1 r2 => rx r1 (rx r2 k) c s
  | Alt r1 r2 =>
      match rx r1 k c s with
      | Some res => Some res
      | None => rx r2 k c s
      end
  | Star r1 => star_loop (rx r1) k (length s) c s
  | Group n r1 =>
      rx r1 (fun c' s' => k ((n, firstn (length s - length s') s) :: c') s') c s
  | Backref n =>
      match cap c n with
      | None => k c s
      | Some t =>
          if starts_with_canon t s then k c (skipn (length t) s) else None
      end
  | NegLook r1 =>
      match rx r1 (fun c' s' => Some (c', s')) c s with
      | Some _ => None
      | None => k c s
      end
  end.

(** ** What a successful match consumed

    [consumed r c s c' s'] holds when [r] can match at the front of [s]
    under the captures [c], leaving [s'] and the captures [c']; for a
    look-ahead it only says that nothing is consumed. *)
Inductive iterated (R : caps -> text -> caps -> text -> Prop)
  : caps -> text -> caps -> text -> Prop :=
| iterated_stop c s : iterated R c s c s
| iterated_step c s c1 s1 c2 s2 :
    R c s c1 s1 -> length s1 < length s -> iterated R c1 s1 c2 s2 ->
    iterated R c s c2 s2.

Fixpoint consumed (r : regex) (c : caps) (s : text) (c' : caps) (s' : text)
  {struct r} : Prop :=
  match r with
  | Eps => c' = c /\ s' = s
  | Bol => length s = total /\ c' = c /\ s' = s
  | Eol => s = [] /\ c' = c /\ s' = s
  | Any => exists a, s = a :: s' /\ is_line_terminator a = false /\ c' = c
  | Cls neg items =>
      exists a, s = a :: s' /\ xorb neg (in_class items a) = true /\ c' = c
  | Seq r1 r2 => exists c1 s1, consumed r1 c s c1 s1 /\ consumed r2 c1 s1 c' s'
  | Alt r1 r2 => consumed r1 c s c' s' \/ consumed r2 c s c' s'
  | Star r1 => iterated (consumed r1) c s c' s'
  | Group n r1 =>
      exists c1, consumed r1 c s c1 s'
                 /\ c' = (n, firstn (length s - length s') s) :: c1
  | Backref n =>
      match cap c n with
      | None => c' = c /\ s' = s
      | Some t => starts_with_canon t s = true /\ s' = skipn (length t) s /\ c' = c
      end
  | NegLook _ => c' = c /\ s' = s
  end.

(** Every code unit, and a test over all of them. *)
Definition all_ascii : list ascii := map ascii_of_nat (seq 0 256).
Definition every (P : ascii -> bool) : bool := forallb P all_ascii.

(** The least number of code units a match of [r] consumes. *)
Fixpoint min_len (r : regex) : nat :=
  match r with
  | Any | Cls _ _ => 1
  | Seq r1 r2 => min_len r1 + min_len r2
  | Alt r1 r2 => Nat.min (min_len r1) (min_len r2)
  | Group _ r1 => min_len r1
  | Eps | Bol | Eol | Star _ | Backref _ | NegLook _ => 0
  end.

(** [only P r]: every code unit a match of [r] consumes satisfies [P]. *)
Fixpoint only (P : ascii -> bool) (r : regex) : bool :=
  match r with
  | Eps | Bol | Eol | NegLook _ => true
  | Any => every (fun a => is_line_terminator a || P a)
  | Cls neg items => every (fun a => negb (xorb neg (in_class items a)) || P a)
  | Seq r1 r2 | Alt r1 r2 => only P r1 && only P r2
  | Star r1 | Group _ r1 => only P r1
  | Backref _ => every P
  end.

End Engine.

(** The result array of [exec]: [index], element 0 and the groups. *)
Record MatchResult : Type := {
  m_index : nat;
  m_text : text;
  m_caps : caps
}.

(** A regular expression literal: its body and its [i] flag. *)
Record RegExp : Type := { body : regex; ignoreCase : bool }.

(** One attempt at index [i] of [w]. *)
Definition match_at (re : RegExp) (w : text) (i : nat) : option MatchResult :=
  let s := skipn i w in
  match rx (ignoreCase re) (length w) (body re) (fun c s' => Some (c, s')) [] s with
  | Some (c, s') =>
      Some {| m_index := i; m_text := firstn (length s - length s') s; m_caps := c |}
  | None => None
  end.

(** The attempts at [i], [i+1], ... up to the end of [w] included. *)
Fixpoint search_from (re : RegExp) (w : text) (i : nat) (fuel : nat)
  : option MatchResult :=
  match match_at re w i with
  | Some m => Some m
  | None =>
      match fuel with
      | O => None
      | S fuel' => search_from re w (S i) fuel'
      end
  end.

(** [re.exec(w)] of a regular expression without the [g] flag, which is
    also [w.match(re)]. *)
Definition exec (re : RegExp) (w : text) : option MatchResult :=
  search_from re w 0 (length w).

(** [re.test(w)]. *)
Definition test (re : RegExp) (w : text) : bool :=
  match exec re w with Some _ => true | None => false end.

(** [w.replace(re, f)] without the [g] flag: the first match is replaced. *)
Definition replace (re : RegExp) (f : caps -> text) (w : text) : text :=
  match exec re w with
  | None => w
  | Some m =>
      firstn (m_index m) w ++ f (m_caps m)
        ++ skipn (m_index m + length (m_text m)) w
  end.

(** [w.replace(re, f)] with the [g] flag: matches are found from left to
    right, each search starting where the previous match ended (one
    further on after an empty match). [from] is that index and [fuel]
    bounds the number of matches. *)
Fixpoint replace_all_from (re : RegExp) (f : caps -> text) (w : text)
    (from : nat) (fuel : nat) : text :=
  match fuel with
  | O => skipn from w
  | S fuel' =>
      match search_from re w from (length w - from) with
      | None => skipn from w
      | Some m =>
          let stop := m_index m + length (m_text m) in
          firstn (m_index m - from) (skipn from w) ++ f (m_caps m)
            ++ (if length (m_text m) =? 0
                then firstn 1 (skipn stop w)
                     ++ replace_all_from re f w (S stop) fuel'
                else replace_all_from re f w stop fuel')
      end
  end.

Definition replace_all (re : RegExp) (f : caps -> text) (w : text) : text :=
  replace_all_from re f w 0 (S (length w)).

End Regex.
Export Regex.

(* ================================================================== *)
(** * Data model *)
(* ================================================================== *)

(** [String(t)] and [t + ''] on a table argument. *)
Definition table_to_string (t : TableRef) : text :=
  match t with
  | TableString s => s
  | TableObject _ _ => txt "[object Object]"
  end.

(** Truthiness of [t.tableName]: a string has no such property. *)
Definition has_tableName (t : TableRef) : bool :=
  match t with
  | TableString _ => false
  | TableObject (TableString s) _ => nonempty s
  | TableObject (TableObject _ _) _ => true
  end.

(** A routine parameter as [expandFunctionParamList] reads it: each of
    the three properties is present with a string, or absent. *)
Record RoutineParameter : Type := {
  direction : option text;
  name : option text;
  type : option text
}.




(** A [Utils.Cast] object: the property [type] is the one the MySQL
    generator rewrites. *)
Record CastMethod : Type := {
  cast_val : JsValue;
  cast_type : text;
  cast_json : bool
}.

(** What [handleSequelizeMethod] receives.  A [Utils.Json] holds either
    a condition object, or a path (a string) with a value, [JsUndefined]
    when there is none; [Conditions] is the type of condition objects. *)
Inductive SequelizeMethod (Conditions : Type) : Type :=
| Json (conditions : option Conditions) (path : option text) (value : JsValue)
| Cast (c : CastMethod)
| OtherMethod (v : JsValue).
Arguments Json {Conditions}.
Arguments Cast {Conditions}.
Arguments OtherMethod {Conditions}.

(** A row of an introspection result.  A column the query does not
    select is not read by the code that receives the row. *)
Record Row : Type := {
  constraint_name : text;
  constraintName_of : text;
  constraintType : text;
  row_tableName : text
}.

(** The abstract query generator the MySQL generator extends, and the
    utilities it calls: identifier quoting, literal escaping, the insert
    statement generator, the condition-object parser and the inherited
    [handleSequelizeMethod].  They are pure functions. *)
Class AbstractQueryGenerator : Type := {
  Conditions : Type;
  quoteIdentifier : text -> text;
  quoteTable : TableRef -> text;
  escape : JsValue -> text;
  addTicks : TableRef -> ascii -> text;
  insertQuery : TableRef -> list (text * JsValue) -> JsValue
                -> gmap string text -> text;
  parseConditionObject : Conditions -> list (list text * text);
  super_handleSequelizeMethod : SequelizeMethod Conditions -> text
}.

(* ================================================================== *)
(** * The MySQL query generator ([MySQLQueryGenerator]) *)
(* ================================================================== *)

Module QueryGenerator.

Local Open Scope char_scope.

Definition nl : ascii := ascii_of_nat 10.
Definition tab : ascii := ascii_of_nat 9.

(** ** The expression tokenizer *)

Definition ws : regex := Cls false [CSpace].
Definition az : regex := Cls false [CRange "a" "z"].

(** [/^\s*((?:[a-z]+_){0,2}jsonb?(?:_[a-z]+){0,2})\([^)]*\)/i] *)
Definition jsonFunctionRegex : RegExp := {|
  body := Seqs [Bol; Star ws;
                Group 1 (Seqs [UpTo2 (Seq (Plus az) (Chr "_"));
                               Lit (txt "json"); Opt (Chr "b");
                               UpTo2 (Seq (Chr "_") (Plus az))]);
                Chr "("; Star (Cls true [CChar ")"]); Chr ")"];
  ignoreCase := true |}.

(** [/^\s*(->>?|@>|<@|\?[|&]?|\|{2}|#-)/i] *)
Definition jsonOperatorRegex : RegExp := {|
  body := Seqs [Bol; Star ws;
                Group 1 (Alts [Seq (Lit (txt "->")) (Opt (Chr ">"));
                               Lit (txt "@>");
                               Lit (txt "<@");
                               Seq (Chr "?") (Opt (Cls false [CChar "|"; CChar "&"]));
                               Twice (Chr "|");
                               Lit (txt "#-")])];
  ignoreCase := true |}.

(** [/^\s*((?:([`Q'])(?:(?!\2).|\2{2})*\2)|[\w\d\s]+|[().,;+-])/i],
    where Q stands for the double quote. *)
Definition tokenCaptureRegex : RegExp := {|
  body := Seqs [Bol; Star ws;
                Group 1 (Alts [Seqs [Group 2 (Cls false [CChar "`"; CChar dquote; CChar "'"]);
                                     Star (Alt (Seq (NegLook (Backref 2)) Any)
                                               (Twice (Backref 2)));
                                     Backref 2];
                               Plus (Cls false [CWord; CDigit; CSpace]);
                               Cls false [CChar "("; CChar ")"; CChar "."; CChar ",";
                                          CChar ";"; CChar "+"; CChar "-"]])];
  ignoreCase := true |}.

(** A code unit other than the opening parenthesis. *)
Definition not_paren (a : ascii) : bool := negb (ascii_eqb a "(").

(** The local variables of the scanning loop. *)
Record ScanState : Type := {
  currentIndex : Z;
  openingBrackets : nat;
  closingBrackets : nat;
  hasJsonFunction : bool;
  hasInvalidToken : bool
}.

Definition scan_start : ScanState := {|
  currentIndex := 0; openingBrackets := 0; closingBrackets := 0;
  hasJsonFunction := false; hasInvalidToken := false |}.

(** How one pass through the loop body ends: [continue], or [break]. *)
Inductive Flow : Type :=
| Continue (st : ScanState)
| Break (st : ScanState).

(** [s.substr(i)] for any integer [i]: a negative [i] counts from the
    end. *)
Definition substr_from (s : text) (i : Z) : text :=
  if (i <? 0)%Z
  then skipn (Z.to_nat (Z.max (Z.of_nat (length s) + i) 0)) s
  else skipn (Z.to_nat i) s.

(** [s.indexOf(t)] as the integer it is, -1 when [t] is absent. *)
Definition indexOf_int (s t : text) : Z :=
  match indexOf s t with Some i => Z.of_nat i | None => (-1)%Z end.

Definition advance (st : ScanState) (n : Z) : ScanState := {|
  currentIndex := currentIndex st + n;
  openingBrackets := openingBrackets st;
  closingBrackets := closingBrackets st;
  hasJsonFunction := hasJsonFunction st;
  hasInvalidToken := hasInvalidToken st |}.

Definition set_hasJsonFunction (st : ScanState) : ScanState := {|
  currentIndex := currentIndex st;
  openingBrackets := openingBrackets st;
  closingBrackets := closingBrackets st;
  hasJsonFunction := true;
  hasInvalidToken := hasInvalidToken st |}.

Definition set_hasInvalidToken (st : ScanState) : ScanState := {|
  currentIndex := currentIndex st;
  openingBrackets := openingBrackets st;
  closingBrackets := closingBrackets st;
  hasJsonFunction := hasJsonFunction st;
  hasInvalidToken := true |}.

Definition incr_opening (st : ScanState) : ScanState := {|
  currentIndex := currentIndex st;
  openingBrackets := S (openingBrackets st);
  closingBrackets := closingBrackets st;
  hasJsonFunction := hasJsonFunction st;
  hasInvalidToken := hasInvalidToken st |}.

Definition incr_closing (st : ScanState) : ScanState := {|
  currentIndex := currentIndex st;
  openingBrackets := openingBrackets st;
  closingBrackets := S (closingBrackets st);
  hasJsonFunction := hasJsonFunction st;
  hasInvalidToken := hasInvalidToken st |}.

(** The body of the [while] loop of [_checkValidJsonStatement]. *)
Definition scan_step (stmt : text) (st : ScanState) : Flow :=
  let string := substr_from stmt (currentIndex st) in
  match exec jsonFunctionRegex string with
  | Some functionMatches =>
      Continue (set_hasJsonFunction
                  (advance st (indexOf_int (m_text functionMatches) (txt "("))))
  | None =>
      match exec jsonOperatorRegex string with
      | Some operatorMatches =>
          Continue (set_hasJsonFunction
                      (advance st (Z.of_nat (length (m_text operatorMatches)))))
      | None =>
          match exec tokenCaptureRegex string with
          | Some tokenMatches =>
              let capturedToken := cap_text (m_caps tokenMatches) 1 in
              let len := Z.of_nat (length (m_text tokenMatches)) in
              if text_eqb capturedToken (txt "(") then
                Continue (advance (incr_opening st) len)
              else if text_eqb capturedToken (txt ")") then
                Continue (advance (incr_closing st) len)
              else if text_eqb capturedToken (txt ";") then
                Break (set_hasInvalidToken st)
              else Continue (advance st len)
          | None => Break st
          end
      end
  end.

(** The [while (currentIndex < stmt.length)] loop; [fuel] bounds the
    number of passes and [None] means the bound was reached. *)
Fixpoint scan (stmt : text) (fuel : nat) (st : ScanState) : option ScanState :=
  if (currentIndex st <? Z.of_nat (length stmt))%Z then
    match fuel with
    | O => None
    | S fuel' =>
        match scan_step stmt st with
        | Continue st' => scan stmt fuel' st'
        | Break st' => Some st'
        end
    end
  else Some st.

(** The states the loop passes through: [reaches stmt st st'] when the
    loop, started in [st], comes to test its condition in [st']. *)
Inductive reaches (stmt : text) : ScanState -> ScanState -> Prop :=
| reaches_here st : reaches stmt st st
| reaches_next st st' st'' :
    (currentIndex st <? Z.of_nat (length stmt))%Z = true ->
    scan_step stmt st = Continue st' ->
    reaches stmt st' st'' ->
    reaches stmt st st''.


(** The statements after the loop. *)
Definition scan_verdict (stmt : text) (st : ScanState) : result bool :=
  let hasInvalidToken' :=
    hasInvalidToken st || negb (openingBrackets st =? closingBrackets st)%nat in
  if hasJsonFunction st && hasInvalidToken'
  then Throw (Error (txt "Invalid json statement: " ++ stmt))
  else Ok (hasJsonFunction st).

Definition _checkValidJsonStatement_fuel (fuel : nat) (stmt : JsValue)
  : option (result bool) :=
  if negb (isString stmt) then Some (Ok false)
  else match stmt with
       | JsString s =>
           match scan s fuel scan_start with
           | Some st => Some (scan_verdict s st)
           | None => None
           end
       | _ => Some (Ok false)
       end.

(** [_checkValidJsonStatement(stmt)]; every pass of the loop moves the
    cursor forward (lemma [scan_terminates]), so one pass per code unit
    is enough and the result is never [None]. *)
Definition _checkValidJsonStatement (stmt : JsValue) : option (result bool) :=
  _checkValidJsonStatement_fuel
    (match stmt with JsString s => S (length s) | _ => 0 end) stmt.

Section Generator.

Context {G : AbstractQueryGenerator}.

(** ** The structured-value accessor and the cast-type remapping *)

Definition digits1 : regex := Plus (Cls false [CDigit]).

(** [/\.(\d+)\./g], [/\.(\d+)$/] and [/\[\d+\]$/]. *)
Definition dotNumberDot : RegExp :=
  {| body := Seqs [Chr "."; Group 1 digits1; Chr "."]; ignoreCase := false |}.
Definition dotNumberEnd : RegExp :=
  {| body := Seqs [Chr "."; Group 1 digits1; Eol]; ignoreCase := false |}.
Definition bracketNumberEnd : RegExp :=
  {| body := Seqs [Chr "["; digits1; Chr "]"; Eol]; ignoreCase := false |}.

(** The replacement strings ['[$1].'] and ['[$1]']. *)
Definition in_brackets_dot (c : caps) : text := txt "[" ++ cap_text c 1 ++ txt "].".
Definition in_brackets (c : caps) : text := txt "[" ++ cap_text c 1 ++ txt "]".

(** The [else] branch under "Also support json dot notation": from the
    path to the accessor text. *)
Definition compile_path (path0 : text) : result text :=
  let path1 := replace_all dotNumberDot in_brackets_dot path0 in
  let path2 := replace dotNumberEnd in_brackets path1 in
  match split "." path2 with
  | [] => Throw (TypeError (txt "Cannot read property 'match' of undefined"))
  | columnName :: path =>
      match exec bracketNumberEnd columnName with
      | Some m =>
          let path' := substr columnName (m_index m) :: path in
          let columnName' := substr0 columnName (m_index m) in
          Ok (quoteIdentifier columnName' ++ txt "->>'$" ++ join (txt ".") path'
                ++ txt "'")
      | None =>
          Ok (quoteIdentifier columnName ++ txt "->>'$" ++ txt "."
                ++ join (txt ".") path ++ txt "'")
      end
  end.

(** [/timestamp/i], [/boolean/i], [/double precision/i], [/integer/i]
    and [/text/i]. *)
Definition word_i (w : string) : RegExp :=
  {| body := Lit (txt w); ignoreCase := true |}.

(** The type a cast is rewritten to. *)
Definition remap_cast_type (c : CastMethod) : text :=
  if test (word_i "timestamp") (cast_type c) then txt "datetime"
  else if cast_json c && test (word_i "boolean") (cast_type c) then txt "char"
  else if test (word_i "double precision") (cast_type c)
          || test (word_i "boolean") (cast_type c)
          || test (word_i "integer") (cast_type c) then txt "decimal"
  else if test (word_i "text") (cast_type c) then txt "char"
  else cast_type c.

Definition set_cast_type (c : CastMethod) (t : text) : CastMethod :=
  {| cast_val := cast_val c; cast_type := t; cast_json := cast_json c |}.

(** [_.first] and [_.tail] on a path. *)
Definition first (p : list text) : text := hd [] p.

(** [handleSequelizeMethod(smth, ...)]: the text, and [smth] as the call
    leaves it.  The arguments after [smth] are only handed on to the
    inherited method.  [None] stands for a tokenizer that did not
    finish. *)
Definition handleSequelizeMethod (smth : SequelizeMethod Conditions)
  : option (result text * SequelizeMethod Conditions) :=
  match smth with
  | Json (Some conditions) _ _ =>
      let conds :=
        map (fun condition : list text * text =>
               quoteIdentifier (first (fst condition)) ++ txt "->>'$."
                 ++ join (txt ".") (tl (fst condition)) ++ txt "' = '"
                 ++ snd condition ++ txt "'")
            (parseConditionObject conditions) in
      Some (Ok (join (txt " and ") conds), smth)
  | Json None (Some path) value =>
      if nonempty path then
        match _checkValidJsonStatement (JsString path) with
        | None => None
        | Some (Throw e) => Some (Throw e, smth)
        | Some (Ok isJson) =>
            match (if isJson then Ok path else compile_path path) with
            | Throw e => Some (Throw e, smth)
            | Ok str =>
                if truthy value
                then Some (Ok (str ++ txt " = " ++ escape value), smth)
                else Some (Ok str, smth)
            end
        end
      else Some (Ok (super_handleSequelizeMethod smth), smth)
  | Json None None _ => Some (Ok (super_handleSequelizeMethod smth), smth)
  | Cast c =>
      let smth' := Cast (set_cast_type c (remap_cast_type c)) in
      Some (Ok (super_handleSequelizeMethod smth'), smth')
  | OtherMethod _ => Some (Ok (super_handleSequelizeMethod smth), smth)
  end.

(** ** upsertQuery *)


(** ** createTableQuery *)















(** ** The single-statement translations the query interface calls *)

Definition removeColumnQuery (tableName : TableRef) (attributeName : text) : text :=
  txt "ALTER TABLE " ++ quoteTable tableName ++ txt " DROP "
    ++ quoteIdentifier attributeName ++ txt ";".

Definition dropForeignKeyQuery (tableName : TableRef) (foreignKey : text) : text :=
  txt "ALTER TABLE " ++ quoteTable tableName ++ txt " DROP FOREIGN KEY "
    ++ quoteIdentifier foreignKey ++ txt ";".

(** [removeIndexQuery] for an index given by its name. *)
Definition removeIndexQuery (tableName : TableRef) (indexName : text) : text :=
  txt "DROP INDEX " ++ quoteIdentifier indexName ++ txt " ON " ++ quoteTable tableName.

(** [table.tableName || table] and [table.schema]. *)
Definition tableName_or_self (table : TableRef) : TableRef :=
  match table with
  | TableObject tn _ => if has_tableName table then tn else table
  | TableString _ => table
  end.
Definition schema_of (table : TableRef) : option text :=
  match table with
  | TableObject _ s => s
  | TableString _ => None
  end.

Definition showConstraintsQuery (table : TableRef) (constraintName : option text)
  : text :=
  join (txt " ")
    [txt "SELECT CONSTRAINT_CATALOG AS constraintCatalog,";
     txt "CONSTRAINT_NAME AS constraintName,";
     txt "CONSTRAINT_SCHEMA AS constraintSchema,";
     txt "CONSTRAINT_TYPE AS constraintType,";
     txt "TABLE_NAME AS tableName,";
     txt "TABLE_SCHEMA AS tableSchema";
     txt "from INFORMATION_SCHEMA.TABLE_CONSTRAINTS";
     txt "WHERE table_name='" ++ table_to_string (tableName_or_self table) ++ txt "'"]
    ++ match constraintName with
       | Some c => if nonempty c then txt " AND constraint_name = '" ++ c ++ txt "'"
                   else []
       | None => []
       end
    ++ match schema_of table with
       | Some s => if nonempty s then txt " AND TABLE_SCHEMA = '" ++ s ++ txt "'"
                   else []
       | None => []
       end
    ++ txt ";".

Definition wrapSingleQuote (identifier : TableRef) : text := addTicks identifier "'".

Definition _getForeignKeysQueryFields : text :=
  join (txt ",")
    [txt "CONSTRAINT_NAME as constraint_name";
     txt "CONSTRAINT_NAME as constraintName";
     txt "CONSTRAINT_SCHEMA as constraintSchema";
     txt "CONSTRAINT_SCHEMA as constraintCatalog";
     txt "TABLE_NAME as tableName";
     txt "TABLE_SCHEMA as tableSchema";
     txt "TABLE_SCHEMA as tableCatalog";
     txt "COLUMN_NAME as columnName";
     txt "REFERENCED_TABLE_SCHEMA as referencedTableSchema";
     txt "REFERENCED_TABLE_SCHEMA as referencedTableCatalog";
     txt "REFERENCED_TABLE_NAME as referencedTableName";
     txt "REFERENCED_COLUMN_NAME as referencedColumnName"].

Definition getForeignKeyQuery (table : TableRef) (columnName : text) : text :=
  let tableName := tableName_or_self table in
  let schemaName := schema_of table in
  let schema_filter (column : text) : text :=
    match schemaName with
    | Some s => if nonempty s
                then txt " AND " ++ column ++ txt " = " ++ wrapSingleQuote (TableString s)
                else []
    | None => []
    end in
  txt "SELECT " ++ _getForeignKeysQueryFields
    ++ txt " FROM INFORMATION_SCHEMA.KEY_COLUMN_USAGE"
    ++ txt " WHERE (REFERENCED_TABLE_NAME = " ++ wrapSingleQuote tableName
    ++ schema_filter (txt "REFERENCED_TABLE_SCHEMA")
    ++ txt " AND REFERENCED_COLUMN_NAME = " ++ wrapSingleQuote (TableString columnName)
    ++ txt ") OR (TABLE_NAME = " ++ wrapSingleQuote tableName
    ++ schema_filter (txt "TABLE_SCHEMA")
    ++ txt " AND COLUMN_NAME = " ++ wrapSingleQuote (TableString columnName)
    ++ txt " AND REFERENCED_TABLE_NAME IS NOT NULL"
    ++ txt ")".

(** ** Stored functions *)

(** [expandOptions(options)]: [None] is an absent, [null] or otherwise
    empty argument. *)
Definition expandOptions (options : option (list text)) : text :=
  match options with
  | None | Some [] => []
  | Some l => nl :: tab :: join [nl; tab] l
  end.

(** The array [paramDef] the callback of [_.each] builds for one
    parameter. *)
Definition paramDef (curParam : RoutineParameter) : result (list text) :=
  match type curParam with
  | Some ty =>
      Ok ((match direction curParam with
           | Some d => if negb (text_eqb (toUpperCase d) (txt "IN")) then [d] else []
           | None => []
           end)
          ++ (match name curParam with Some n => [n] | None => [] end)
          ++ [ty])
  | None =>
      Throw (Error (txt "function or trigger used with a parameter without any type"))
  end.

(** The loop [_.each(params, ...)]: [paramList] grows by the joined
    definition of a parameter when that text is not empty. *)
Fixpoint expand_params (params : list RoutineParameter) (paramList : list text)
  : result (list text) :=
  match params with
  | [] => Ok paramList
  | curParam :: rest =>
      match paramDef curParam with
      | Throw e => Throw e
      | Ok def =>
          let joined := join (txt " ") def in
          expand_params rest
            (if nonempty joined then paramList ++ [joined] else paramList)
      end
  end.

(** [expandFunctionParamList(params)]; [None] is an argument that is
    [undefined] or not an array. *)
Definition expandFunctionParamList (params : option (list RoutineParameter))
  : result text :=
  match params with
  | None =>
      Throw (Error (txt "expandFunctionParamList: function parameters array required, including an empty one for no arguments"))
  | Some l =>
      match expand_params l [] with
      | Throw e => Throw e
      | Ok paramList => Ok (join (txt ", ") paramList)
      end
  end.

(** [/\n/g]. *)
Definition newlineRegex : RegExp := {| body := Chr nl; ignoreCase := false |}.

Definition spaces (n : nat) : text := repeat " " n.

(** [createFunction(functionName, params, returnType, language, body,
    options)] of the generator; a string argument is [None] when it is
    [undefined] or [null]. *)
Definition createFunction (functionName : option text)
    (params : option (list RoutineParameter)) (returnType language body : option text)
    (options : option (list text)) : result text :=
  match functionName, returnType, language, body with
  | Some fn, Some rt, Some lg, Some bd =>
      if nonempty fn && nonempty rt && nonempty lg && nonempty bd then
        match expandFunctionParamList params with
        | Throw e => Throw e
        | Ok paramList =>
            let indentedBody := replace_all newlineRegex (fun _ => [nl; tab]) bd in
            let expandedOptions := expandOptions options in
            Ok (txt "CREATE FUNCTION " ++ fn ++ txt "(" ++ paramList ++ txt ")" ++ [nl]
                  ++ spaces 8 ++ txt "RETURNS " ++ rt ++ [nl]
                  ++ spaces 8 ++ expandedOptions ++ [nl]
                  ++ spaces 6 ++ txt "BEGIN" ++ [nl]
                  ++ spaces 8 ++ indentedBody ++ [nl]
                  ++ spaces 6 ++ txt "END;")
        end
      else Throw (Error (txt "createFunction missing some parameters. Did you pass functionName, returnType, language and body?"))
  | _, _, _, _ =>
      Throw (Error (txt "createFunction missing some parameters. Did you pass functionName, returnType, language and body?"))
  end.

Definition dropFunction (functionName : option text)
    (params : option (list RoutineParameter)) : result text :=
  match functionName with
  | Some fn => if nonempty fn
               then Ok (txt "DROP FUNCTION IF EXISTS " ++ fn ++ txt ";")
               else Throw (Error (txt "requires functionName"))
  | None => Throw (Error (txt "requires functionName"))
  end.

(** [throwMethodUndefined(methodName)]. *)
Definition throwMethodUndefined {A : Type} (methodName : text) : result A :=
  Throw (Error (txt "The method " ++ [dquote] ++ methodName ++ [dquote]
                  ++ txt " is not defined for mysql dialect.")).

(** [renameFunction(oldFunctionName, params, newFunctionName)]: the
    text it would return is never produced. *)
Definition renameFunction (oldFunctionName : option text)
    (params : option (list RoutineParameter)) (newFunctionName : option text)
  : result text :=
  throwMethodUndefined (txt "renameFunction").

End Generator.

(** ** Column definitions *)









Section Attributes.

Context {G : AbstractQueryGenerator}.

(** [Utils.defaultValueSchemable], of the utilities. *)
Variable defaultValueSchemable : JsValue -> bool.







End Attributes.

End QueryGenerator.

(* ================================================================== *)
(** * The MySQL query interface ([query-interface.js]) *)
(* ================================================================== *)

(** What the query interface calls on [this.QueryGenerator]. *)
Class QueryGeneratorMethods : Type := {
  gen_getForeignKeyQuery : TableRef -> text -> text;
  gen_dropForeignKeyQuery : TableRef -> text -> text;
  gen_removeColumnQuery : TableRef -> text -> text;
  gen_showConstraintsQuery : TableRef -> option text -> text;
  gen_removeIndexQuery : TableRef -> text -> text;
  gen_createFunction : option text -> option (list RoutineParameter) -> option text
                       -> option text -> option text -> option (list text)
                       -> result text
}.

(** The MySQL generator behind that interface. *)
Definition MySQLQueryGenerator (G : AbstractQueryGenerator) : QueryGeneratorMethods := {|
  gen_getForeignKeyQuery := QueryGenerator.getForeignKeyQuery;
  gen_dropForeignKeyQuery := QueryGenerator.dropForeignKeyQuery;
  gen_removeColumnQuery := QueryGenerator.removeColumnQuery;
  gen_showConstraintsQuery := QueryGenerator.showConstraintsQuery;
  gen_removeIndexQuery := QueryGenerator.removeIndexQuery;
  gen_createFunction := QueryGenerator.createFunction
|}.

Module QueryInterface.

(** The statements issued on the session so far, oldest first. *)
Definition Log : Type := list text.

(** What [sequelize.query] answers: the execution channel knows the
    statements issued before the one it is given. *)
Definition Channel : Type := Log -> text -> result (list Row).

(** A computation on the session: from the log to a settled result, a
    resolved value or a rejection, and the log it leaves. *)
Definition Session (A : Type) : Type := Log -> result A * Log.

Definition resolve {A} (v : A) : Session A := fun log => (Ok v, log).
Definition reject {A} (e : JsError) : Session A := fun log => (Throw e, log).

(** [p.then(f)]: [f] runs once [p] has resolved; a rejection of [p] is
    the rejection of the whole. *)
Definition then_ {A B} (p : Session A) (f : A -> Session B) : Session B :=
  fun log =>
    match p log with
    | (Ok v, log') => f v log'
    | (Throw e, log') => (Throw e, log')
    end.

Notation "'await' x <- p ; q" := (then_ p (fun x => q))
  (at level 10, x name, p at level 100, q at level 200).

(** A synchronous [throw] of the generator, inside an orchestration. *)
Definition lift {A} (r : result A) : Session A := fun log => (r, log).

Section Interface.

Context {QG : QueryGeneratorMethods}.
Variable channel : Channel.
(** [this.sequelize.config.database] *)
Variable database : text.

(** [this.sequelize.query(sql, options)]: the statement is issued, and
    the channel settles it. *)
Definition query (sql : text) : Session (list Row) :=
  fun log => (channel log sql, log ++ [sql]).

(** [Promise.map(items, f)] without a concurrency limit: [f] is called
    on every item, in array order, before any of the calls settles, so
    every statement is issued; the whole is rejected when one call is,
    here with the rejection of the first such item. *)
Fixpoint Promise_map {A B} (items : list A) (f : A -> Session B)
  : Session (list B) :=
  fun log =>
    match items with
    | [] => (Ok [], log)
    | x :: rest =>
        let '(r, log1) := f x log in
        let '(rs, log2) := Promise_map rest f log1 in
        (match r, rs with
         | Ok v, Ok vs => Ok (v :: vs)
         | Throw e, _ => Throw e
         | Ok _, Throw e => Throw e
         end, log2)
    end.

(** [tableName.tableName ? tableName : { tableName, schema: database }] *)
Definition with_schema (tableName : TableRef) : TableRef :=
  if has_tableName tableName then tableName
  else TableObject tableName (Some database).

(** [removeColumn(tableName, columnName, options)] *)
Definition removeColumn (tableName : TableRef) (columnName : text)
  : Session (list Row) :=
  await _ <-
    (await results <-
       query (gen_getForeignKeyQuery (with_schema tableName) columnName);
     match results with
     | [] => resolve []
     | first :: _ =>
         if text_eqb (constraint_name first) (txt "PRIMARY") then resolve []
         else
           Promise_map results (fun constraint =>
             query (gen_dropForeignKeyQuery tableName (constraint_name constraint)))
     end);
  query (gen_removeColumnQuery tableName columnName).

(** [removeConstraint(tableName, constraintName, options)] *)
Definition removeConstraint (tableName : TableRef) (constraintName : text)
  : Session (list Row) :=
  let sql := gen_showConstraintsQuery (with_schema tableName) (Some constraintName) in
  await constraints <- query sql;
  match constraints with
  | constraint :: _ =>
      if nonempty (constraintType constraint) then
        if text_eqb (constraintType constraint) (txt "FOREIGN KEY") then
          query (gen_dropForeignKeyQuery tableName constraintName)
        else
          query (gen_removeIndexQuery (TableString (row_tableName constraint))
                   (constraintName_of constraint))
      else
        reject (UnknownConstraintError
                  (txt "Constraint " ++ constraintName ++ txt " on table "
                     ++ table_to_string tableName ++ txt " does not exist")
                  constraintName tableName)
  | [] =>
      reject (UnknownConstraintError
                (txt "Constraint " ++ constraintName ++ txt " on table "
                   ++ table_to_string tableName ++ txt " does not exist")
                constraintName tableName)
  end.

Definition delimiter : text := txt "__END_FUNCTION__".

(** [createFunction(functionName, params, returnType, language, body,
    optionsArray, options)]: [None] is the [undefined] the promise
    resolves to when nothing is sent. *)
Definition createFunction (functionName : option text)
    (params : option (list RoutineParameter)) (returnType language body : option text)
    (optionsArray : option (list text)) : Session (option (list Row)) :=
  await functionSql <-
    lift (gen_createFunction functionName params returnType language body
            optionsArray);
  if nonempty functionSql then
    await _ <- query (txt "DELIMITER " ++ delimiter ++ txt ";");
    await _ <- query (functionSql ++ [QueryGenerator.nl] ++ delimiter);
    await rows <- query (txt "DELIMITER ;");
    resolve (Some rows)
  else resolve None.

End Interface.

End QueryInterface.

(* ================================================================== *)
(** * Instances on which the definitions are evaluated *)
(* ================================================================== *)

Module Reference.

Local Open Scope char_scope.

(** [Utils.removeTicks(s, tick)] and [Utils.addTicks(s, tick)] on a
    string. *)
Definition removeTicks (s : text) (tick : ascii) : text :=
  List.filter (fun a => negb (ascii_eqb a tick)) s.
Definition addTicks_text (s : text) (tick : ascii) : text :=
  tick :: removeTicks s tick ++ [tick].

(** Inherited utilities of the simplest kind: identifiers and tables in
    backticks, literals printed by [literal], an insert statement that
    shows the [onDuplicate] option it was given, and an inherited
    [handleSequelizeMethod] that shows the type of a cast. *)
Definition literal (v : JsValue) : text :=
  match v with
  | JsString s => addTicks_text s "'"
  | JsNumber z => txt (NilZero.string_of_int (Z.to_int z))
  | JsBoolean b => txt (if b then "true" else "false")
  | _ => txt "NULL"
  end.

Definition insert_text (t : TableRef) (values : list (text * JsValue))
    (rawAttributes : JsValue) (options : gmap string text) : text :=
  txt "INSERT INTO " ++ addTicks_text (table_to_string t) "`" ++ txt " ... ON DUPLICATE KEY "
    ++ match options !! "onDuplicate"%string with Some o => o | None => [] end.

Definition inherited_text (smth : SequelizeMethod unit) : text :=
  match smth with
  | Cast c => txt "CAST(? AS " ++ toUpperCase (cast_type c) ++ txt ")"
  | _ => []
  end.

Definition Backticks : AbstractQueryGenerator := {|
  Conditions := unit;
  quoteIdentifier := fun s => addTicks_text s "`";
  quoteTable := fun t => addTicks_text (table_to_string t) "`";
  escape := literal;
  addTicks := fun t tick => addTicks_text (table_to_string t) tick;
  insertQuery := insert_text;
  parseConditionObject := fun _ => [];
  super_handleSequelizeMethod := inherited_text
|}.




(** A channel that answers the [n]-th statement of the session with the
    [n]-th entry of a script, and with no rows beyond it. *)
Definition scripted (script : list (result (list Row))) : QueryInterface.Channel :=
  fun log _ => nth (length log) script (Ok []).

(** A row of a foreign-key introspection. *)
Definition fk_row (constraint : string) : Row := {|
  constraint_name := txt constraint;
  constraintName_of := txt constraint;
  constraintType := [];
  row_tableName := txt "t"
|}.

(** A row of a constraint introspection. *)
Definition constraint_row (kind : string) (table constraint : string) : Row := {|
  constraint_name := [];
  constraintName_of := txt constraint;
  constraintType := txt kind;
  row_tableName := txt table
|}.



(** A generator whose [createFunction] yields the text it is built
    with. *)
Definition ConstantGenerator (sql : result text) : QueryGeneratorMethods := {|
  gen_getForeignKeyQuery := fun _ _ => [];
  gen_dropForeignKeyQuery := fun _ _ => [];
  gen_removeColumnQuery := fun _ _ => [];
  gen_showConstraintsQuery := fun _ _ => [];
  gen_removeIndexQuery := fun _ _ => [];
  gen_createFunction := fun _ _ _ _ _ _ => sql
|}.

End Reference.

(* ================================================================== *)
(** * The behaviour as the specification words it *)
(* ================================================================== *)

Module Spec.

Local Open Scope char_scope.

(** The text of one routine parameter: the direction unless it is IN
    (in any letter case), then the name when there is one, then the
    type, separated by single spaces. *)
Definition param_text (p : RoutineParameter) : text :=
  join (txt " ")
    ((match direction p with
      | Some d => if text_eqb (toUpperCase d) (txt "IN") then [] else [d]
      | None => []
      end)
     ++ (match name p with Some n => [n] | None => [] end)
     ++ (match type p with Some ty => [ty] | None => [] end)).


(** The longest run of code units that satisfy [p] at the front of
    [s], and what follows it. *)
Fixpoint span (p : ascii -> bool) (s : text) : text * text :=
  match s with
  | a :: s' => if p a then (a :: fst (span p s'), snd (span p s')) else ([], s)
  | [] => ([], [])
  end.

(** [s] starts with a dot, a number and a dot: the number, and what
    follows the second dot. *)
Definition dot_number_dot (s : text) : option (text * text) :=
  match s with
  | a :: d :: s2 =>
      if ascii_eqb a "." && is_digit d then
        match snd (span is_digit s2) with
        | b :: s3 => if ascii_eqb b "." then Some (d :: fst (span is_digit s2), s3)
                     else None
        | [] => None
        end
      else None
  | _ => None
  end.

(** Every [.N.] becomes [[N].], from left to right; after a converted
    segment the scan goes on behind its second dot.  [fuel] bounds the
    number of steps; the length of [s] is enough. *)
Fixpoint brackets_between_fuel (fuel : nat) (s : text) : text :=
  match fuel with
  | O => s
  | S fuel' =>
      match dot_number_dot s with
      | Some (n, rest) => txt "[" ++ n ++ txt "]." ++ brackets_between_fuel fuel' rest
      | None =>
          match s with
          | [] => []
          | a :: s' => a :: brackets_between_fuel fuel' s'
          end
      end
  end.
Definition brackets_between (s : text) : text := brackets_between_fuel (length s) s.

(** [s] is a dot and a number, and nothing more: the number. *)
Definition dot_number (s : text) : option text :=
  match s with
  | a :: d :: s2 =>
      if ascii_eqb a "." && is_digit d && forallb is_digit s2 then Some (d :: s2)
      else None
  | _ => None
  end.

(** A trailing [.N] becomes [[N]]. *)
Fixpoint bracket_last (s : text) : text :=
  match s with
  | [] => []
  | a :: s' =>
      match dot_number s with
      | Some n => txt "[" ++ n ++ txt "]"
      | None => a :: bracket_last s'
      end
  end.

(** [s] is a number in square brackets, and nothing more. *)
Definition bracket_number (s : text) : bool :=
  match s with
  | a :: d :: s2 =>
      ascii_eqb a "[" && is_digit d
      && match snd (span is_digit s2) with
         | [b] => ascii_eqb b "]"
         | _ => false
         end
  | _ => false
  end.

(** A segment that ends in [[N]]: the column before the index, and the
    index. *)
Fixpoint split_index (s : text) : option (text * text) :=
  match s with
  | [] => None
  | a :: s' =>
      if bracket_number s then Some ([], s)
      else match split_index s' with
           | Some (col, idx) => Some (a :: col, idx)
           | None => None
           end
  end.

(** The accessor of a plain path: the dot and array notation is
    normalised, the path is split on dots, the leading segment gives
    the column, with an immediate index when it ends in [[N]], and the
    text is [<col>->>'$<leading dot if any><remaining path>']. *)
Definition accessor {G : AbstractQueryGenerator} (path : text) : text :=
  match split "." (bracket_last (brackets_between path)) with
  | [] => []
  | leading :: rest =>
      match split_index leading with
      | Some (col, idx) =>
          quoteIdentifier col ++ txt "->>'$" ++ join (txt ".") (idx :: rest) ++ txt "'"
      | None =>
          quoteIdentifier leading ++ txt "->>'$." ++ join (txt ".") rest ++ txt "'"
      end
  end.

End Spec.

(* ================================================================== *)
(** * Closed forms in which further properties are stated *)
(* ================================================================== *)

Module Forms.

Local Open Scope char_scope.

(** The code units a JSON function call or a JSON operator cannot do
    without: the opening parenthesis and the characters of the
    operators. *)
Definition json_char (a : ascii) : bool :=
  existsb (ascii_eqb a) (txt "(->@<?|&#").
Definition no_json_char (a : ascii) : bool := negb (json_char a).

(** A body with a tab after each of its newlines. *)
Definition indent (body : text) : text :=
  flat_map (fun a => if ascii_eqb a QueryGenerator.nl
                     then [QueryGenerator.nl; QueryGenerator.tab] else [a]) body.

(** A path in dot notation after its column: keys and array indices. *)
Inductive Segment : Type :=
| Key (k : text)
| Index (n : text).

(** The path as it is written, every segment behind a dot. *)
Definition dotted_segment (s : Segment) : text :=
  match s with Key k => "." :: k | Index n => "." :: n end.
Definition dotted (col : text) (segs : list Segment) : text :=
  col ++ concat (map dotted_segment segs).


(** A key has no dot and does not start with a digit; an index is a
    non-empty run of digits; a column is not empty and has neither dot
    nor opening bracket.  None of them holds a code unit of
    [json_char]. *)
Definition key_char (a : ascii) : bool := negb (ascii_eqb a ".") && no_json_char a.
Definition index_ok (n : text) : bool := nonempty n && forallb is_digit n.
Definition column_char (a : ascii) : bool := key_char a && negb (ascii_eqb a "[").
Definition column_ok (col : text) : bool := nonempty col && forallb column_char col.




(** [o] is a non-empty string. *)
Definition present (o : option text) : Prop := exists s, o = Some s /\ s <> [].


(** [w] occurs in [s], letter case apart. *)
Definition contains_ci (w s : text) : Prop :=
  exists u x v, s = u ++ x ++ v /\ toUpperCase x = toUpperCase w.


End Forms.

(* ================================================================== *)
(** * Basic facts on text *)
(* ================================================================== *)

Section TextFacts.

Lemma ascii_eqb_eq (a b : ascii) : ascii_eqb a b = true <-> a = b.
Proof. unfold ascii_eqb. apply Ascii.eqb_eq. Qed.

Lemma ascii_eqb_refl (a : ascii) : ascii_eqb a a = true.
Proof. now apply ascii_eqb_eq. Qed.

Lemma text_eqb_eq (s t : text) : text_eqb s t = true <-> s = t.
Proof.
  revert t. induction s as [|a s IH]; intros [|b t]; simpl; try easy.
  rewrite andb_true_iff, ascii_eqb_eq, IH. split.
  - now intros [-> ->].
  - intros H. injection H. auto.
Qed.

Lemma text_eqb_refl (s : text) : text_eqb s s = true.
Proof. now apply text_eqb_eq. Qed.

Lemma text_eqb_neq (s t : text) : text_eqb s t = false <-> s <> t.
Proof.
  rewrite <- text_eqb_eq. destruct (text_eqb s t); split; congruence.
Qed.

Lemma nonempty_true (s : text) : nonempty s = true <-> s <> [].
Proof. destruct s; simpl; split; congruence. Qed.

Lemma nonempty_app_r (s t : text) : nonempty t = true -> nonempty (s ++ t) = true.
Proof. destruct s; simpl; auto. Qed.

(** A joined list is not empty when its last piece is not. *)
Lemma join_nonempty_last (sep : text) (l : list text) (x : text) :
  nonempty x = true -> nonempty (join sep (l ++ [x])) = true.
Proof.
  intros Hx. induction l as [|y l IH]; simpl; [assumption|].
  destruct (l ++ [x]) as [|z r] eqn:E.
  - now destruct l.
  - apply nonempty_app_r, nonempty_app_r. exact IH.
Qed.

End TextFacts.

(* ================================================================== *)
(** * Properties of the query interface *)
(* ================================================================== *)

Section InterfaceProperties.

Import QueryInterface.

Context {QG : QueryGeneratorMethods}.
Variable channel : Channel.
Variable database : text.

Lemma snoc_snoc {A} (l : list A) (x y : A) : (l ++ [x]) ++ [y] = l ++ [x; y].
Proof. now rewrite <- app_assoc. Qed.

Lemma query_issues sql log :
  query channel sql log = (channel log sql, log ++ [sql]).
Proof. reflexivity. Qed.

(** A [Promise.map] of queries issues one statement per item, in order,
    whatever the channel answers. *)
Lemma Promise_map_issues {A} (items : list A) (stmt : A -> text) log :
  snd (Promise_map items (fun x => query channel (stmt x)) log)
  = log ++ map stmt items.
Proof.
  revert log. induction items as [|x rest IH]; intros log; simpl.
  - now rewrite app_nil_r.
  - specialize (IH (log ++ [stmt x])).
    destruct (Promise_map rest _ (log ++ [stmt x])) as [rs log2]. simpl in *.
    now rewrite IH, <- app_assoc.
Qed.

(** C3. The orchestrated [createFunction] sends, in this order, the
    delimiter switch, the body closed by the sentinel, and the delimiter
    restore.  A step that fails ends the sequence with its own error and
    nothing after it is sent: when the body submission fails after the
    switch succeeded, the restore is not attempted.  When the generator
    yields the empty text nothing is sent and the operation succeeds. *)
Theorem createFunction_three_steps
    (functionName : option text) (params : option (list RoutineParameter))
    (returnType language body : option text) (optionsArray : option (list text))
    (log : Log) (functionSql : text) :
  gen_createFunction functionName params returnType language body optionsArray
    = Ok functionSql ->
  let s1 := txt "DELIMITER __END_FUNCTION__;" in
  let s2 := functionSql ++ [QueryGenerator.nl] ++ txt "__END_FUNCTION__" in
  let s3 := txt "DELIMITER ;" in
  let run := createFunction channel functionName params returnType language body
               optionsArray log in
  (functionSql = [] -> run = (Ok None, log)) /\
  (functionSql <> [] ->
     (forall e, channel log s1 = Throw e -> run = (Throw e, log ++ [s1])) /\
     (forall r1 e, channel log s1 = Ok r1 ->
        channel (log ++ [s1]) s2 = Throw e ->
        run = (Throw e, log ++ [s1; s2])) /\
     (forall r1 r2 e, channel log s1 = Ok r1 ->
        channel (log ++ [s1]) s2 = Ok r2 ->
        channel (log ++ [s1; s2]) s3 = Throw e ->
        run = (Throw e, log ++ [s1; s2; s3])) /\
     (forall r1 r2 r3, channel log s1 = Ok r1 ->
        channel (log ++ [s1]) s2 = Ok r2 ->
        channel (log ++ [s1; s2]) s3 = Ok r3 ->
        run = (Ok (Some r3), log ++ [s1; s2; s3]))).
Proof.
  intros Hgen s1 s2 s3 run. subst run.
  unfold createFunction, lift, then_, query, resolve. rewrite Hgen.
  split.
  - intros ->. reflexivity.
  - intros Hne. destruct functionSql as [|a sql']; [congruence|].
    change (nonempty (a :: sql')) with true. cbv beta iota.
    change ((a :: sql') ++ [QueryGenerator.nl] ++ delimiter) with s2.
    change (txt "DELIMITER " ++ delimiter ++ txt ";") with s1.
    change (txt "DELIMITER ;") with s3.
    assert (Hl2 : (log ++ [s1]) ++ [s2] = log ++ [s1; s2])
      by now rewrite <- app_assoc.
    assert (Hl3 : (log ++ [s1; s2]) ++ [s3] = log ++ [s1; s2; s3])
      by now rewrite <- app_assoc.
    rewrite Hl2, Hl3.
    repeat split.
    + intros e H1. now rewrite H1.
    + intros r1 e H1 H2. now rewrite H1, H2.
    + intros r1 r2 e H1 H2 H3. now rewrite H1, H2, H3.
    + intros r1 r2 r3 H1 H2 H3. now rewrite H1, H2, H3.
Qed.

(** What [removeConstraint] does, by the first row of the introspection
    result. *)
Lemma removeConstraint_cases (tableName : TableRef) (constraintName : text)
    (log : Log) :
  let sql := gen_showConstraintsQuery (with_schema database tableName)
               (Some constraintName) in
  let unknown :=
    UnknownConstraintError
      (txt "Constraint " ++ constraintName ++ txt " on table "
         ++ table_to_string tableName ++ txt " does not exist")
      constraintName tableName in
  removeConstraint channel database tableName constraintName log =
  match channel log sql with
  | Throw e => (Throw e, log ++ [sql])
  | Ok [] => (Throw unknown, log ++ [sql])
  | Ok (constraint :: _) =>
      if nonempty (constraintType constraint) then
        let next :=
          if text_eqb (constraintType constraint) (txt "FOREIGN KEY")
          then gen_dropForeignKeyQuery tableName constraintName
          else gen_removeIndexQuery (TableString (row_tableName constraint))
                 (constraintName_of constraint) in
        (channel (log ++ [sql]) next, (log ++ [sql]) ++ [next])
      else (Throw unknown, log ++ [sql])
  end.
Proof.
  intros sql unknown. unfold removeConstraint, then_, query. fold sql.
  destruct (channel log sql) as [[|constraint rest]|e]; try reflexivity.
  destruct (nonempty (constraintType constraint)); [|reflexivity].
  destruct (text_eqb (constraintType constraint) (txt "FOREIGN KEY")); reflexivity.
Qed.

(** C5, as the code has it.  [removeConstraint] first sends the
    constraint introspection.  When that returns no row, or a first row
    whose kind is empty, it fails with the unknown-constraint error that
    carries the constraint name and the table, and sends nothing more.
    When the first row's kind is FOREIGN KEY it sends the drop of the
    foreign key; for any other non-empty kind it sends the drop of the
    index named by the row, on the table of the row. *)
Theorem removeConstraint_amended (tableName : TableRef) (constraintName : text)
    (log : Log) :
  let sql := gen_showConstraintsQuery (with_schema database tableName)
               (Some constraintName) in
  let unknown :=
    UnknownConstraintError
      (txt "Constraint " ++ constraintName ++ txt " on table "
         ++ table_to_string tableName ++ txt " does not exist")
      constraintName tableName in
  let run := removeConstraint channel database tableName constraintName log in
  (channel log sql = Ok [] -> run = (Throw unknown, log ++ [sql]))
  /\ (forall row rest, channel log sql = Ok (row :: rest) ->
        constraintType row = [] -> run = (Throw unknown, log ++ [sql]))
  /\ (forall row rest, channel log sql = Ok (row :: rest) ->
        constraintType row = txt "FOREIGN KEY" ->
        let drop := gen_dropForeignKeyQuery tableName constraintName in
        run = (channel (log ++ [sql]) drop, log ++ [sql; drop]))
  /\ (forall row rest, channel log sql = Ok (row :: rest) ->
        constraintType row <> [] -> constraintType row <> txt "FOREIGN KEY" ->
        let drop := gen_removeIndexQuery (TableString (row_tableName row))
                      (constraintName_of row) in
        run = (channel (log ++ [sql]) drop, log ++ [sql; drop])).
Proof.
  intros sql unknown run. subst run.
  rewrite removeConstraint_cases. fold sql. fold unknown.
  repeat split.
  - now intros ->.
  - intros row rest -> Hkind. now rewrite Hkind.
  - intros row rest -> Hkind drop. rewrite Hkind.
    change (nonempty (txt "FOREIGN KEY")) with true.
    rewrite text_eqb_refl. cbv beta iota zeta. fold drop.
    now rewrite <- app_assoc.
  - intros row rest -> Hne Hfk drop.
    apply nonempty_true in Hne. apply text_eqb_neq in Hfk.
    rewrite Hne, Hfk. cbv beta iota zeta. fold drop.
    now rewrite <- app_assoc.
Qed.

(** What [removeColumn] does, by the rows of the introspection result:
    only the first row is compared with PRIMARY. *)
Lemma removeColumn_cases (tableName : TableRef) (columnName : text) (log : Log) :
  let sql := gen_getForeignKeyQuery (with_schema database tableName) columnName in
  let drop_column := gen_removeColumnQuery tableName columnName in
  let drop_key (row : Row) := gen_dropForeignKeyQuery tableName (constraint_name row) in
  let run := removeColumn channel database tableName columnName log in
  match channel log sql with
  | Throw e => run = (Throw e, log ++ [sql])
  | Ok [] => run = (channel (log ++ [sql]) drop_column, log ++ [sql; drop_column])
  | Ok (first :: rest) =>
      if text_eqb (constraint_name first) (txt "PRIMARY")
      then run = (channel (log ++ [sql]) drop_column, log ++ [sql; drop_column])
      else
        let issued := log ++ sql :: map drop_key (first :: rest) in
        (exists e, run = (Throw e, issued))
        \/ run = (channel issued drop_column, issued ++ [drop_column])
  end.
Proof.
  intros sql drop_column drop_key run. subst run.
  destruct (channel log sql) as [[|first rest]|e] eqn:Hq.
  - unfold removeColumn, then_, query, resolve. fold sql. rewrite Hq.
    fold drop_column. now rewrite snoc_snoc.
  - destruct (text_eqb (constraint_name first) (txt "PRIMARY")) eqn:Hp.
    + unfold removeColumn, then_, query, resolve. fold sql. rewrite Hq, Hp.
      fold drop_column. now rewrite snoc_snoc.
    + intros issued.
      pose proof (Promise_map_issues (first :: rest) drop_key (log ++ [sql])) as Hlog.
      unfold removeColumn, then_. rewrite query_issues. fold sql. rewrite Hq, Hp.
      change (fun constraint : Row =>
                query channel (gen_dropForeignKeyQuery tableName
                                 (constraint_name constraint)))
        with (fun c : Row => query channel (drop_key c)).
      destruct (Promise_map (first :: rest) (fun c => query channel (drop_key c))
                  (log ++ [sql])) as [r log'].
      cbn [snd] in Hlog. subst log'.
      assert (Heq : (log ++ [sql]) ++ map drop_key (first :: rest) = issued).
      { unfold issued. now rewrite <- app_assoc. }
      rewrite Heq. destruct r as [v|e].
      * right. reflexivity.
      * left. now exists e.
  - unfold removeColumn, then_, query. fold sql. now rewrite Hq.
Qed.

End InterfaceProperties.

(* ================================================================== *)
(** * Properties of the stored-function generators *)
(* ================================================================== *)

Section RoutineProperties.

Import QueryGenerator.

Context {G : AbstractQueryGenerator}.

Lemma paramDef_typed (p : RoutineParameter) (ty : text) :
  type p = Some ty ->
  exists def, paramDef p = Ok def /\ join (txt " ") def = Spec.param_text p.
Proof.
  intros Hty. unfold paramDef, Spec.param_text. rewrite Hty.
  eexists. split; [reflexivity|].
  destruct (direction p) as [d|]; [|reflexivity].
  now destruct (text_eqb (toUpperCase d) (txt "IN")).
Qed.

(** The loop over typed parameters, in closed form. *)
Lemma expand_params_typed (l : list RoutineParameter) (acc : list text) :
  Forall (fun p => type p <> None) l ->
  expand_params l acc
  = Ok (acc ++ List.filter nonempty (map Spec.param_text l)).
Proof.
  intros Hall. revert acc.
  induction Hall as [|p l Hp _ IH]; intros acc; cbn [expand_params].
  - cbn. now rewrite app_nil_r.
  - destruct (type p) as [ty|] eqn:Hty; [|congruence].
    destruct (paramDef_typed p ty Hty) as (def & -> & Hdef).
    rewrite Hdef, IH. cbn [map List.filter].
    destruct (nonempty (Spec.param_text p)); [|reflexivity].
    now rewrite <- app_assoc.
Qed.

(** The loop throws at the first parameter without a type. *)
Lemma expand_params_untyped (l : list RoutineParameter) (acc : list text) :
  Exists (fun p => type p = None) l ->
  expand_params l acc
  = Throw (Error (txt "function or trigger used with a parameter without any type")).
Proof.
  intros Hex. revert acc.
  induction l as [|p l IH]; intros acc; [inversion Hex|].
  cbn [expand_params]. unfold paramDef at 1.
  destruct (type p) as [ty|] eqn:Hty; [|reflexivity].
  apply IH. inversion Hex; subst; [congruence|assumption].
Qed.

Lemma param_text_nonempty (p : RoutineParameter) (ty : text) :
  type p = Some ty -> ty <> [] -> nonempty (Spec.param_text p) = true.
Proof.
  intros Hty Hne. unfold Spec.param_text. rewrite Hty, app_assoc.
  apply join_nonempty_last. now apply nonempty_true.
Qed.

(** C6, as the code has it.  [expandFunctionParamList] throws, and gives
    no text, when its argument is not an array and when an entry has no
    type.  When every entry has a type the result is the comma-separated
    list of the parameter texts that are not empty, each made of the
    direction unless it is IN in any letter case, the name when there is
    one, and the type; so there are as many parameters in the output as
    entries in the input when every type is a non-empty string. *)
Theorem expandFunctionParamList_amended :
  expandFunctionParamList None
    = Throw (Error (txt "expandFunctionParamList: function parameters array required, including an empty one for no arguments"))
  /\ (forall l, Exists (fun p => type p = None) l ->
        expandFunctionParamList (Some l)
        = Throw (Error (txt "function or trigger used with a parameter without any type")))
  /\ (forall l, Forall (fun p => type p <> None) l ->
        expand_params l [] = Ok (List.filter nonempty (map Spec.param_text l))
        /\ expandFunctionParamList (Some l)
           = Ok (join (txt ", ") (List.filter nonempty (map Spec.param_text l))))
  /\ (forall l, Forall (fun p => exists ty, type p = Some ty /\ ty <> []) l ->
        length (List.filter nonempty (map Spec.param_text l)) = length l).
Proof.
  split; [reflexivity|]. split; [|split].
  - intros l Hex. unfold expandFunctionParamList.
    now rewrite expand_params_untyped.
  - intros l Hall. unfold expandFunctionParamList.
    now rewrite expand_params_typed.
  - intros l Hall. induction Hall as [|p l (ty & Hty & Hne) _ IH]; [reflexivity|].
    simpl. rewrite (param_text_nonempty p ty Hty Hne). simpl. now rewrite IH.
Qed.

(** C9. [renameFunction] throws for every input, with a message that
    names the operation; no text is produced, and run inside a session
    it leaves the log of issued statements as it was. *)
Theorem renameFunction_always_throws
    (oldFunctionName : option text) (params : option (list RoutineParameter))
    (newFunctionName : option text) (log : QueryInterface.Log) :
  let message := txt "The method " ++ [dquote] ++ txt "renameFunction" ++ [dquote]
                   ++ txt " is not defined for mysql dialect." in
  renameFunction oldFunctionName params newFunctionName = Throw (Error message)
  /\ includes message (txt "renameFunction") = true
  /\ QueryInterface.lift (renameFunction oldFunctionName params newFunctionName) log
     = (Throw (Error message), log).
Proof. repeat split. Qed.

End RoutineProperties.

(* ================================================================== *)
(** * What the generator writes to its arguments *)
(* ================================================================== *)

Section ArgumentWrites.

Import QueryGenerator.

Context {G : AbstractQueryGenerator}.



End ArgumentWrites.

(* ================================================================== *)
(** * Facts on the matcher *)
(* ================================================================== *)

Section EngineFacts.

Variable icase : bool.
Variable total : nat.

Lemma every_spec (P : ascii -> bool) : every P = true -> forall a, P a = true.
Proof.
  unfold every. rewrite forallb_forall. intros H a. apply H.
  unfold all_ascii. rewrite <- (ascii_nat_embedding a).
  apply in_map, in_seq. pose proof (nat_ascii_bounded a). lia.
Qed.

Lemma star_loop_sound body (R : caps -> text -> caps -> text -> Prop) (k : cont) :
  (forall k' c s res, body k' c s = Some res ->
     exists c1 s1, R c s c1 s1 /\ k' c1 s1 = Some res) ->
  forall fuel c s res, star_loop body k fuel c s = Some res ->
    exists c' s', iterated R c s c' s' /\ k c' s' = Some res.
Proof.
  intros Hbody. induction fuel as [|fuel IH]; intros c s res H; cbn [star_loop] in H.
  - exists c, s. split; [constructor|assumption].
  - match type of H with match ?b with _ => _ end = _ => destruct b eqn:E end.
    + injection H as ->.
      destruct (Hbody _ _ _ _ E) as (c1 & s1 & HR & Hk).
      destruct (length s1 <? length s) eqn:Hlt; [|discriminate].
      apply Nat.ltb_lt in Hlt.
      destruct (IH _ _ _ Hk) as (c' & s' & Hit & Hk').
      exists c', s'. split; [|assumption].
      econstructor; eassumption.
    + exists c, s. split; [constructor|assumption].
Qed.

(** A successful run of the matcher consumed what [consumed] says. *)
Lemma rx_sound (r : regex) :
  forall (k : cont) c s res, rx icase total r k c s = Some res ->
    exists c' s', consumed icase total r c s c' s' /\ k c' s' = Some res.
Proof.
  induction r as [| | | |neg items|r1 IH1 r2 IH2|r1 IH1 r2 IH2|r1 IH1|n r1 IH1|n|r1 IH1];
    intros k c s res H; cbn [rx] in H; cbn [consumed].
  - exists c, s. auto.
  - destruct (length s =? total) eqn:E; [|discriminate].
    apply Nat.eqb_eq in E. exists c, s. auto.
  - destruct s; [|discriminate]. exists c, []. auto.
  - destruct s as [|a s']; [discriminate|].
    destruct (is_line_terminator a) eqn:E; [discriminate|].
    exists c, s'. split; [exists a|]; auto.
  - destruct s as [|a s']; [discriminate|].
    destruct (xorb neg (in_class icase items a)) eqn:E; [|discriminate].
    exists c, s'. split; [exists a|]; auto.
  - destruct (IH1 _ _ _ _ H) as (c1 & s1 & H1 & Hk1).
    destruct (IH2 _ _ _ _ Hk1) as (c2 & s2 & H2 & Hk2).
    exists c2, s2. split; [exists c1, s1|]; auto.
  - destruct (rx icase total r1 k c s) eqn:E.
    + injection H as ->. destruct (IH1 _ _ _ _ E) as (c1 & s1 & H1 & Hk1).
      exists c1, s1. auto.
    + destruct (IH2 _ _ _ _ H) as (c1 & s1 & H1 & Hk1).
      exists c1, s1. auto.
  - eapply star_loop_sound; [|exact H]. intros k' c0 s0 res0. apply IH1.
  - destruct (IH1 _ _ _ _ H) as (c1 & s1 & H1 & Hk1).
    eexists _, s1. split; [exists c1; split; [exact H1|reflexivity]|exact Hk1].
  - destruct (cap c n) as [t|].
    + destruct (starts_with_canon icase t s) eqn:E; [|discriminate].
      exists c, (skipn (length t) s). auto.
    + exists c, s. auto.
  - destruct (rx icase total r1 _ c s); [discriminate|]. exists c, s. auto.
Qed.

Lemma starts_with_canon_length (t s : text) :
  starts_with_canon icase t s = true -> length t <= length s.
Proof.
  revert s. induction t as [|a t IH]; intros [|b s]; simpl; try lia; try discriminate.
  rewrite andb_true_iff. intros [_ H]. apply IH in H. lia.
Qed.

(** What is consumed is a prefix of the subject, at least [min_len]
    long, made of code units that [only] allows. *)
Lemma consumed_prefix (P : ascii -> bool) (r : regex) :
  only icase P r = true ->
  forall c s c' s', consumed icase total r c s c' s' ->
    exists m, s = m ++ s' /\ forallb P m = true /\ min_len r <= length m.
Proof.
  induction r as [| | | |neg items|r1 IH1 r2 IH2|r1 IH1 r2 IH2|r1 IH1|n r1 IH1|n|r1 IH1];
    intros Honly c s c' s' H; cbn [only] in Honly; cbn [consumed] in H;
    cbn [min_len].
  - destruct H as (_ & ->). exists []. auto.
  - destruct H as (_ & _ & ->). exists []. auto.
  - destruct H as (_ & _ & ->). exists []. auto.
  - destruct H as (a & -> & Ha & _). exists [a]. repeat split; [|simpl; lia].
    pose proof (every_spec _ Honly a) as Hp. cbv beta in Hp.
    rewrite Ha in Hp. simpl in *. now rewrite Hp.
  - destruct H as (a & -> & Ha & _). exists [a]. repeat split; [|simpl; lia].
    pose proof (every_spec _ Honly a) as Hp. cbv beta in Hp.
    rewrite Ha in Hp. simpl in *. now rewrite Hp.
  - apply andb_true_iff in Honly as [O1 O2].
    destruct H as (c1 & s1 & H1 & H2).
    destruct (IH1 O1 _ _ _ _ H1) as (m1 & -> & P1 & L1).
    destruct (IH2 O2 _ _ _ _ H2) as (m2 & -> & P2 & L2).
    exists (m1 ++ m2). rewrite <- app_assoc, forallb_app, P1, P2, length_app.
    repeat split. lia.
  - apply andb_true_iff in Honly as [O1 O2]. destruct H as [H|H].
    + destruct (IH1 O1 _ _ _ _ H) as (m & -> & Pm & L). exists m. repeat split; auto. lia.
    + destruct (IH2 O2 _ _ _ _ H) as (m & -> & Pm & L). exists m. repeat split; auto. lia.
  - induction H as [c s|c s c1 s1 c2 s2 H1 _ _ IH].
    + exists []. repeat split. simpl; lia.
    + destruct (IH1 Honly _ _ _ _ H1) as (m1 & -> & P1 & _).
      destruct IH as (m2 & -> & P2 & _).
      exists (m1 ++ m2). rewrite <- app_assoc, forallb_app, P1, P2.
      repeat split. lia.
  - destruct H as (c1 & H & _). now apply (IH1 Honly _ _ _ _ H).
  - destruct (cap c n) as [t|].
    + destruct H as (Hs & -> & _). apply starts_with_canon_length in Hs.
      exists (firstn (length t) s). rewrite firstn_skipn. repeat split; [|lia].
      apply forallb_forall. intros a _. now apply every_spec.
    + destruct H as (_ & ->). exists []. auto.
  - destruct H as (_ & ->). exists []. auto.
Qed.

End EngineFacts.

Section SearchFacts.

Lemma match_at_some (re : RegExp) (w : text) (i : nat) (m : MatchResult) :
  match_at re w i = Some m ->
  exists c s',
    rx (ignoreCase re) (length w) (body re) (fun c s' => Some (c, s')) []
       (skipn i w) = Some (c, s')
    /\ m = {| m_index := i;
              m_text := firstn (length (skipn i w) - length s') (skipn i w);
              m_caps := c |}.
Proof.
  unfold match_at. destruct (rx _ _ _ _ _ _) as [[c s']|]; [|discriminate].
  intros H. injection H as <-. now exists c, s'.
Qed.

Lemma search_from_some (re : RegExp) (w : text) (fuel i : nat) (m : MatchResult) :
  search_from re w i fuel = Some m ->
  exists j, i <= j /\ match_at re w j = Some m.
Proof.
  revert i. induction fuel as [|fuel IH]; intros i H; cbn [search_from] in H.
  - destruct (match_at re w i) eqn:E; [|discriminate]. exists i. split; [lia|congruence].
  - destruct (match_at re w i) eqn:E.
    + exists i. split; [lia|congruence].
    + destruct (IH _ H) as (j & Hj & Hm). exists j. split; [lia|exact Hm].
Qed.

(** The text of a match of [exec]: it is where the subject is cut, it is
    at least [min_len] long, and it is made of code units that [only]
    allows. *)
Lemma exec_consumed (P : ascii -> bool) (re : RegExp) (w : text) (m : MatchResult) :
  only (ignoreCase re) P (body re) = true ->
  exec re w = Some m ->
  exists c' s',
    consumed (ignoreCase re) (length w) (body re) [] (skipn (m_index m) w) c' s'
    /\ skipn (m_index m) w = m_text m ++ s'
    /\ m_caps m = c'
    /\ forallb P (m_text m) = true
    /\ min_len (body re) <= length (m_text m).
Proof.
  intros Honly H. unfold exec in H.
  destruct (search_from_some _ _ _ _ _ H) as (j & _ & Hm).
  destruct (match_at_some _ _ _ _ Hm) as (c & s' & Hrx & ->). cbn [m_index m_text m_caps].
  destruct (rx_sound _ _ _ _ _ _ _ Hrx) as (c' & s'' & Hcons & Hk).
  injection Hk as -> ->.
  destruct (consumed_prefix _ _ P _ Honly _ _ _ _ Hcons) as (mm & Hs & HP & HL).
  exists c, s'. rewrite Hs, length_app, Nat.add_sub, firstn_app, Nat.sub_diag.
  rewrite firstn_all, firstn_O, app_nil_r. rewrite Hs in Hcons.
  repeat split; assumption.
Qed.

End SearchFacts.

(* ================================================================== *)
(** * The expression tokenizer *)
(* ================================================================== *)

Section Tokenizer.

Import QueryGenerator.

Local Open Scope char_scope.

Lemma consumed_Seq_inv icase total r1 r2 c s c' s' :
  consumed icase total (Seq r1 r2) c s c' s' ->
  exists c1 s1, consumed icase total r1 c s c1 s1
                /\ consumed icase total r2 c1 s1 c' s'.
Proof. intros H. exact H. Qed.

Lemma indexOf_cons (a : ascii) (s t : text) :
  indexOf (a :: s) t
  = if starts_with t (a :: s) then Some 0 else option_map S (indexOf s t).
Proof. reflexivity. Qed.

Lemma indexOf_after_prefix (m1 m2 : text) :
  forallb not_paren m1 = true ->
  indexOf (m1 ++ "(" :: m2) (txt "(") = Some (length m1).
Proof.
  induction m1 as [|a m1 IH]; intros H; [reflexivity|].
  simpl in H. apply andb_true_iff in H as [Ha H].
  rewrite <- app_comm_cons, indexOf_cons, (IH H).
  unfold not_paren in Ha. apply negb_true_iff in Ha.
  assert (E : starts_with (txt "(") (a :: m1 ++ "(" :: m2) = false).
  { change (starts_with (txt "(") (a :: m1 ++ "(" :: m2))
      with (ascii_eqb "(" a && true).
    destruct (ascii_eqb "(" a) eqn:E; [|reflexivity].
    apply ascii_eqb_eq in E. subst a. now rewrite ascii_eqb_refl in Ha. }
  now rewrite E.
Qed.

(** A match of the function pattern holds an opening parenthesis, and
    not as its first code unit: the cursor moves on. *)
Lemma function_match_advances (w : text) (m : MatchResult) :
  exec jsonFunctionRegex w = Some m ->
  exists i, indexOf (m_text m) (txt "(") = Some i /\ 1 <= i.
Proof.
  intros H.
  assert (O : only (ignoreCase jsonFunctionRegex) (fun _ => true)
                (body jsonFunctionRegex) = true) by (vm_compute; reflexivity).
  destruct (exec_consumed _ _ _ _ O H) as (c' & s' & Hc & Hs & _ & _ & _).
  apply consumed_Seq_inv in Hc as (c1 & s1 & H1 & Hc).
  apply consumed_Seq_inv in Hc as (c2 & s2 & H2 & Hc).
  apply consumed_Seq_inv in Hc as (c3 & s3 & H3 & Hc).
  apply consumed_Seq_inv in Hc as (c4 & s4 & H4 & Hc).
  pose proof H4 as (a & E4' & _ & _).
  eapply (consumed_prefix _ _ not_paren) in H1 as (m1 & E1 & P1 & _);
    [|vm_compute; reflexivity].
  eapply (consumed_prefix _ _ not_paren) in H2 as (m2 & E2 & P2 & _);
    [|vm_compute; reflexivity].
  eapply (consumed_prefix _ _ not_paren) in H3 as (m3 & E3 & P3 & L3);
    [|vm_compute; reflexivity].
  eapply (consumed_prefix _ _ (fun a => ascii_eqb a "(")) in H4
    as (m4 & E4 & P4 & L4); [|vm_compute; reflexivity].
  eapply (consumed_prefix _ _ (fun _ => true)) in Hc as (m5 & E5 & _ & _);
    [|vm_compute; reflexivity].
  assert (m4 = [a]) as ->.
  { rewrite E4' in E4. pose proof (f_equal (@length ascii) E4) as HL.
    rewrite length_app in HL. cbn [length] in HL.
    destruct m4 as [|b [|b' m4]]; cbn [length] in HL; try lia.
    cbn [app] in E4. congruence. }
  cbn [forallb] in P4. rewrite andb_true_r in P4. apply ascii_eqb_eq in P4. subst a.
  assert (Hm : m_text m = (m1 ++ m2 ++ m3) ++ "(" :: m5).
  { apply (app_inv_tail s'). rewrite <- Hs, E1, E2, E3, E4, E5.
    now rewrite <- !app_assoc. }
  rewrite Hm. exists (length (m1 ++ m2 ++ m3)). split.
  - apply indexOf_after_prefix. now rewrite !forallb_app, P1, P2, P3.
  - match type of L3 with
    | ?x <= _ => let v := eval vm_compute in x in change x with v in L3
    end.
    rewrite !length_app. lia.
Qed.

Lemma operator_match_advances (w : text) (m : MatchResult) :
  exec jsonOperatorRegex w = Some m -> 1 <= length (m_text m).
Proof.
  intros H.
  assert (O : only (ignoreCase jsonOperatorRegex) (fun _ => true)
                (body jsonOperatorRegex) = true) by (vm_compute; reflexivity).
  destruct (exec_consumed _ _ _ _ O H) as (_ & _ & _ & _ & _ & _ & L).
  exact L.
Qed.

Lemma token_match_advances (w : text) (m : MatchResult) :
  exec tokenCaptureRegex w = Some m -> 1 <= length (m_text m).
Proof.
  intros H.
  assert (O : only (ignoreCase tokenCaptureRegex) (fun _ => true)
                (body tokenCaptureRegex) = true) by (vm_compute; reflexivity).
  destruct (exec_consumed _ _ _ _ O H) as (_ & _ & _ & _ & _ & _ & L).
  exact L.
Qed.

(** A pass that ends in [continue] has moved the cursor forward and left
    the invalid-token flag alone. *)
Lemma scan_step_continue (stmt : text) (st st' : ScanState) :
  scan_step stmt st = Continue st' ->
  (currentIndex st + 1 <= currentIndex st')%Z
  /\ hasInvalidToken st' = hasInvalidToken st.
Proof.
  unfold scan_step.
  destruct (exec jsonFunctionRegex _) as [fm|] eqn:Ef.
  { intros H. injection H as <-. cbn [currentIndex hasInvalidToken advance set_hasJsonFunction incr_opening incr_closing].
    destruct (function_match_advances _ _ Ef) as (i & Hi & Li).
    unfold indexOf_int.
    replace (indexOf (m_text fm) ["("]) with (Some i) by (symmetry; exact Hi).
    split; [lia|reflexivity]. }
  destruct (exec jsonOperatorRegex _) as [om|] eqn:Eo.
  { intros H. injection H as <-. cbn [currentIndex hasInvalidToken advance set_hasJsonFunction incr_opening incr_closing].
    pose proof (operator_match_advances _ _ Eo). split; [lia|reflexivity]. }
  destruct (exec tokenCaptureRegex _) as [tm|] eqn:Et; [|discriminate].
  pose proof (token_match_advances _ _ Et).
  destruct (text_eqb _ (txt "(")); [intros E; injection E as <-; cbn [currentIndex hasInvalidToken advance set_hasJsonFunction incr_opening incr_closing]; split; [lia|reflexivity]|].
  destruct (text_eqb _ (txt ")")); [intros E; injection E as <-; cbn [currentIndex hasInvalidToken advance set_hasJsonFunction incr_opening incr_closing]; split; [lia|reflexivity]|].
  destruct (text_eqb _ (txt ";")); [discriminate|].
  intros E; injection E as <-; cbn [currentIndex hasInvalidToken advance set_hasJsonFunction incr_opening incr_closing]; split; [lia|reflexivity].
Qed.



(** The loop ends within the fuel when the fuel exceeds the distance of
    the cursor to the end; the state it ends in is reached by [continue]
    passes, followed by at most one [break]. *)
Lemma scan_terminates (stmt : text) :
  forall fuel st,
    (Z.of_nat (length stmt) - currentIndex st < Z.of_nat fuel)%Z ->
    exists st', scan stmt fuel st = Some st'
      /\ exists st1, reaches stmt st st1
           /\ (st' = st1
               \/ ((currentIndex st1 <? Z.of_nat (length stmt))%Z = true
                   /\ scan_step stmt st1 = Break st')).
Proof.
  induction fuel as [|fuel IH]; intros st Hfuel.
  - exists st. cbn [scan].
    destruct (currentIndex st <? Z.of_nat (length stmt))%Z eqn:E.
    + apply Z.ltb_lt in E. lia.
    + split; [reflexivity|]. exists st. split; [constructor|now left].
  - cbn [scan].
    destruct (currentIndex st <? Z.of_nat (length stmt))%Z eqn:E.
    + destruct (scan_step stmt st) as [st1|st1] eqn:Hstep.
      * destruct (scan_step_continue _ _ _ Hstep) as [Hadv _].
        destruct (IH st1 ltac:(lia)) as (st' & Hscan & st2 & Hreach & Hend).
        exists st'. split; [exact Hscan|].
        exists st2. split; [|exact Hend].
        econstructor; eassumption.
      * exists st1. split; [reflexivity|].
        exists st. split; [constructor|]. right. now split.
    + exists st. split; [reflexivity|]. exists st. split; [constructor|now left].
Qed.


(** C10. On an input that is not a string the tokenizer returns [false]
    and does not throw, whatever the input holds and however many passes
    of the loop it is allowed. *)
Theorem tokenizer_non_string (stmt : JsValue) :
  isString stmt = false ->
  _checkValidJsonStatement stmt = Some (Ok false)
  /\ forall fuel, _checkValidJsonStatement_fuel fuel stmt = Some (Ok false).
Proof.
  intros H. unfold _checkValidJsonStatement, _checkValidJsonStatement_fuel.
  rewrite H. split; reflexivity.
Qed.


End Tokenizer.

(* ================================================================== *)
(** * The matcher on runs of one character class *)
(* ================================================================== *)

Section Runs.

Import Spec.

Local Open Scope char_scope.

Variable total : nat.

Lemma ascii_eqb_sym (a b : ascii) : ascii_eqb a b = ascii_eqb b a.
Proof. unfold ascii_eqb. apply Ascii.eqb_sym. Qed.

Lemma span_app (p : ascii -> bool) (s : text) : fst (span p s) ++ snd (span p s) = s.
Proof.
  induction s as [|a s IH]; [reflexivity|]. cbn [span].
  destruct (p a); cbn [fst snd app]; [now rewrite IH|reflexivity].
Qed.

Lemma span_snd_nil (p : ascii -> bool) (s : text) :
  snd (span p s) = [] <-> forallb p s = true.
Proof.
  induction s as [|a s IH]; [easy|]. cbn [span forallb].
  destruct (p a); cbn [snd andb]; [exact IH|easy].
Qed.

(** The greedy loop over one character class, when what follows cannot
    start inside the run: the whole run is consumed. *)
Lemma star_loop_run (p : ascii -> bool) body (k : cont) :
  (forall (k' : cont) c s,
     body k' c s = match s with
                   | a :: s' => if p a then k' c s' else None
                   | [] => None
                   end) ->
  (forall c a s, p a = true -> k c (a :: s) = None) ->
  forall fuel c s, length s <= fuel ->
    star_loop body k fuel c s = k c (snd (span p s)).
Proof.
  intros Hbody Hk. induction fuel as [|fuel IH]; intros c s Hlen.
  - destruct s; [reflexivity|simpl in Hlen; lia].
  - cbn [star_loop]. rewrite Hbody. destruct s as [|a s']; [reflexivity|].
    cbn [span]. destruct (p a) eqn:Ea; cbn [snd]; [|reflexivity].
    assert (Hlt : (length s' <? length (a :: s'))%nat = true)
      by (apply Nat.ltb_lt; simpl; lia).
    rewrite Hlt, IH by (simpl in Hlen; lia).
    destruct (k c (snd (span p s'))); [reflexivity|]. now apply Hk.
Qed.

Lemma rx_Chr (x : ascii) (k : cont) c s :
  rx false total (Chr x) k c s
  = match s with
    | a :: s' => if ascii_eqb x a then k c s' else None
    | [] => None
    end.
Proof.
  destruct s as [|a s']; [reflexivity|]. cbn [rx Chr].
  replace (xorb false (in_class false [CChar x] a)) with (ascii_eqb x a);
    [reflexivity|].
  cbn. now rewrite orb_false_r.
Qed.

Lemma rx_digit (k : cont) c s :
  rx false total (Cls false [CDigit]) k c s
  = match s with
    | a :: s' => if is_digit a then k c s' else None
    | [] => None
    end.
Proof.
  destruct s as [|a s']; [reflexivity|]. cbn [rx].
  replace (xorb false (in_class false [CDigit] a)) with (is_digit a);
    [reflexivity|].
  cbn. now rewrite orb_false_r.
Qed.

(** [\d+] before something that cannot start with a digit. *)
Lemma rx_digits1 (k : cont) c s :
  (forall c a s, is_digit a = true -> k c (a :: s) = None) ->
  rx false total QueryGenerator.digits1 k c s
  = match s with
    | d :: s2 => if is_digit d then k c (snd (span is_digit s2)) else None
    | [] => None
    end.
Proof.
  intros Hk. unfold QueryGenerator.digits1, Plus.
  change (rx false total (Seq (Cls false [CDigit]) (Star (Cls false [CDigit]))) k c s)
    with (rx false total (Cls false [CDigit])
            (rx false total (Star (Cls false [CDigit])) k) c s).
  rewrite rx_digit. destruct s as [|d s2]; [reflexivity|].
  destruct (is_digit d); [|reflexivity].
  change (rx false total (Star (Cls false [CDigit])) k c s2)
    with (star_loop (rx false total (Cls false [CDigit])) k (length s2) c s2).
  apply (star_loop_run is_digit); auto. intros. apply rx_digit.
Qed.

Lemma digit_not (x : ascii) :
  is_digit x = false -> forall a, is_digit a = true -> ascii_eqb x a = false.
Proof.
  intros Hx a Ha. destruct (ascii_eqb x a) eqn:E; [|reflexivity].
  apply ascii_eqb_eq in E. congruence.
Qed.

End Runs.

(* ================================================================== *)
(** * The three patterns of the accessor compiler *)
(* ================================================================== *)

Section AccessorPatterns.

Import Spec QueryGenerator.

Local Open Scope char_scope.

Lemma dot_number_dot_some (s n rest : text) :
  dot_number_dot s = Some (n, rest) -> s = "." :: n ++ "." :: rest.
Proof.
  unfold dot_number_dot. destruct s as [|a [|d s2]]; try discriminate.
  destruct (ascii_eqb a ".") eqn:Ea; [|discriminate]. apply ascii_eqb_eq in Ea.
  destruct (is_digit d); [|discriminate]. cbn [andb].
  pose proof (span_app is_digit s2) as Happ.
  destruct (snd (span is_digit s2)) as [|b s3]; [discriminate|].
  destruct (ascii_eqb b ".") eqn:Eb; [|discriminate]. apply ascii_eqb_eq in Eb.
  intros [= <- <-]. subst a b. cbn [app]. now rewrite Happ.
Qed.

Lemma dot_number_some (s n : text) : dot_number s = Some n -> s = "." :: n.
Proof.
  unfold dot_number. destruct s as [|a [|d s2]]; try discriminate.
  destruct (ascii_eqb a ".") eqn:Ea; [|discriminate]. apply ascii_eqb_eq in Ea.
  cbn [andb]. destruct (is_digit d); [|discriminate]. cbn [andb].
  destruct (forallb is_digit s2); [|discriminate].
  intros [= <-]. now subst a.
Qed.

Lemma firstn_length_diff {A} (u v : list A) :
  firstn (length (u ++ v) - length v) (u ++ v) = u.
Proof.
  rewrite length_app, Nat.add_sub, firstn_app, Nat.sub_diag, firstn_all.
  cbn. apply app_nil_r.
Qed.

Lemma run_dotNumberDot (total : nat) (s : text) :
  rx false total (body dotNumberDot) (fun c s' => Some (c, s')) [] s
  = match dot_number_dot s with
    | Some (n, rest) => Some ([(1, n)], rest)
    | None => None
    end.
Proof.
  set (final := fun (c : caps) (s' : text) => Some (c, s')).
  change (rx false total (body dotNumberDot) final [] s)
    with (rx false total (Chr ".")
            (rx false total (Seq (Group 1 digits1) (Chr ".")) final) [] s).
  rewrite rx_Chr. destruct s as [|a s1]; [reflexivity|].
  unfold dot_number_dot. rewrite (ascii_eqb_sym a ".").
  destruct (ascii_eqb "." a); [|destruct s1; reflexivity].
  change (rx false total (Seq (Group 1 digits1) (Chr ".")) final [] s1)
    with (rx false total digits1
            (fun c' s' => rx false total (Chr ".") final
                            ((1, firstn (length s1 - length s') s1) :: c') s')
            [] s1).
  rewrite rx_digits1.
  2:{ intros c x s0 Hx. rewrite rx_Chr. now rewrite (digit_not "." eq_refl x Hx). }
  destruct s1 as [|d s2]; [reflexivity|]. cbn [andb].
  destruct (is_digit d); [|reflexivity].
  rewrite rx_Chr. pose proof (span_app is_digit s2) as Happ.
  remember (fst (span is_digit s2)) as u eqn:Hu.
  destruct (snd (span is_digit s2)) as [|b s3]; [reflexivity|].
  rewrite (ascii_eqb_sym b "."). destruct (ascii_eqb "." b); [|reflexivity].
  unfold final. subst s2.
  change (d :: u ++ b :: s3) with ((d :: u) ++ b :: s3).
  now rewrite (firstn_length_diff (d :: u) (b :: s3)).
Qed.

Lemma run_dotNumberEnd (total : nat) (s : text) :
  rx false total (body dotNumberEnd) (fun c s' => Some (c, s')) [] s
  = match dot_number s with
    | Some n => Some ([(1, n)], [])
    | None => None
    end.
Proof.
  set (final := fun (c : caps) (s' : text) => Some (c, s')).
  change (rx false total (body dotNumberEnd) final [] s)
    with (rx false total (Chr ".")
            (rx false total (Seq (Group 1 digits1) Eol) final) [] s).
  rewrite rx_Chr. destruct s as [|a s1]; [reflexivity|].
  unfold dot_number. rewrite (ascii_eqb_sym a ".").
  destruct (ascii_eqb "." a); [|destruct s1; reflexivity].
  change (rx false total (Seq (Group 1 digits1) Eol) final [] s1)
    with (rx false total digits1
            (fun c' s' => rx false total Eol final
                            ((1, firstn (length s1 - length s') s1) :: c') s')
            [] s1).
  rewrite rx_digits1 by reflexivity.
  destruct s1 as [|d s2]; [reflexivity|]. cbn [andb].
  destruct (is_digit d); [|reflexivity]. cbn [andb].
  destruct (forallb is_digit s2) eqn:Hall.
  - apply span_snd_nil in Hall. rewrite Hall. cbn [rx]. unfold final.
    now rewrite Nat.sub_0_r, firstn_all.
  - destruct (snd (span is_digit s2)) eqn:E; [|reflexivity].
    apply span_snd_nil in E. congruence.
Qed.

Lemma run_bracketNumberEnd (total : nat) (s : text) :
  rx false total (body bracketNumberEnd) (fun c s' => Some (c, s')) [] s
  = if bracket_number s then Some ([], []) else None.
Proof.
  set (final := fun (c : caps) (s' : text) => Some (c, s')).
  change (rx false total (body bracketNumberEnd) final [] s)
    with (rx false total (Chr "[")
            (rx false total digits1
               (rx false total (Chr "]") (rx false total Eol final))) [] s).
  rewrite rx_Chr. destruct s as [|a s1]; [reflexivity|].
  unfold bracket_number. rewrite (ascii_eqb_sym a "[").
  destruct (ascii_eqb "[" a); [|destruct s1; reflexivity].
  rewrite rx_digits1.
  2:{ intros c x s0 Hx. rewrite rx_Chr. now rewrite (digit_not "]" eq_refl x Hx). }
  destruct s1 as [|d s2]; [reflexivity|]. cbn [andb].
  destruct (is_digit d); [|reflexivity]. cbn [andb].
  rewrite rx_Chr.
  destruct (snd (span is_digit s2)) as [|b [|b' s3]]; [reflexivity| |].
  - rewrite (ascii_eqb_sym b "]"). now destruct (ascii_eqb "]" b).
  - now destruct (ascii_eqb "]" b).
Qed.

End AccessorPatterns.

(* ================================================================== *)
(** * The accessor compiler against its description *)
(* ================================================================== *)

Section AccessorRefinement.

Import Spec QueryGenerator.

Local Open Scope char_scope.

Lemma skipn_next {A} (w : list A) (i : nat) (a : A) (s : list A) :
  skipn i w = a :: s -> skipn (S i) w = s.
Proof.
  intros H. change (S i) with (1 + i). now rewrite <- skipn_skipn, H.
Qed.

Lemma search_from_index (re : RegExp) (w : text) (i fuel : nat) (m : MatchResult) :
  search_from re w i fuel = Some m -> i <= m_index m.
Proof.
  intros H. destruct (search_from_some _ _ _ _ _ H) as (j & Hj & Hm).
  destruct (match_at_some _ _ _ _ Hm) as (c & s' & _ & ->). exact Hj.
Qed.

Lemma match_at_dotNumberDot (w : text) (i : nat) :
  match_at dotNumberDot w i
  = match dot_number_dot (skipn i w) with
    | Some (n, rest) =>
        Some {| m_index := i; m_text := "." :: n ++ ["."]; m_caps := [(1, n)] |}
    | None => None
    end.
Proof.
  unfold match_at. change (ignoreCase dotNumberDot) with false.
  rewrite run_dotNumberDot.
  destruct (dot_number_dot (skipn i w)) as [[n rest]|] eqn:E; [|reflexivity].
  apply dot_number_dot_some in E. rewrite E.
  change ("." :: n ++ "." :: rest) with (("." :: n) ++ "." :: rest).
  replace (("." :: n) ++ "." :: rest) with (("." :: n ++ ["."]) ++ rest)
    by (cbn; now rewrite <- app_assoc).
  now rewrite firstn_length_diff.
Qed.

Lemma match_at_dotNumberEnd (w : text) (i : nat) :
  match_at dotNumberEnd w i
  = match dot_number (skipn i w) with
    | Some n => Some {| m_index := i; m_text := skipn i w; m_caps := [(1, n)] |}
    | None => None
    end.
Proof.
  unfold match_at. change (ignoreCase dotNumberEnd) with false.
  rewrite run_dotNumberEnd.
  destruct (dot_number (skipn i w)) as [n|]; [|reflexivity].
  cbn [length]. now rewrite Nat.sub_0_r, firstn_all.
Qed.

Lemma match_at_bracketNumberEnd (w : text) (i : nat) :
  match_at bracketNumberEnd w i
  = if bracket_number (skipn i w)
    then Some {| m_index := i; m_text := skipn i w; m_caps := [] |}
    else None.
Proof.
  unfold match_at. change (ignoreCase bracketNumberEnd) with false.
  rewrite run_bracketNumberEnd.
  destruct (bracket_number (skipn i w)); [|reflexivity].
  cbn [length]. now rewrite Nat.sub_0_r, firstn_all.
Qed.

(** The replacement of the trailing [.N], from any index on. *)
Lemma replace_end_from (w : text) :
  forall s i, skipn i w = s ->
    match search_from dotNumberEnd w i (length s) with
    | None => s
    | Some m =>
        firstn (m_index m - i) s ++ in_brackets (m_caps m)
          ++ skipn (m_index m - i + length (m_text m)) s
    end = bracket_last s.
Proof.
  induction s as [|a s' IH]; intros i Hi.
  - cbn [length search_from]. rewrite match_at_dotNumberEnd, Hi. reflexivity.
  - cbn [length search_from]. rewrite match_at_dotNumberEnd, Hi.
    cbn [bracket_last].
    destruct (dot_number (a :: s')) as [n|] eqn:E.
    + cbn [m_index m_text m_caps]. rewrite Nat.sub_diag. cbn [firstn app Nat.add].
      rewrite skipn_all. unfold in_brackets. cbn [cap_text cap Nat.eqb].
      now rewrite !app_nil_r.
    + specialize (IH (S i) (skipn_next _ _ _ _ Hi)).
      destruct (search_from dotNumberEnd w (S i) (length s')) as [m|] eqn:Es.
      * apply search_from_index in Es.
        replace (m_index m - i) with (S (m_index m - S i)) by lia.
        cbn [firstn Nat.add skipn app]. f_equal. exact IH.
      * f_equal. exact IH.
Qed.

Lemma replace_dotNumberEnd (w : text) :
  replace dotNumberEnd in_brackets w = bracket_last w.
Proof.
  unfold replace, exec. pose proof (replace_end_from w w 0 eq_refl) as H.
  destruct (search_from dotNumberEnd w 0 (length w)) as [m|]; [|exact H].
  now rewrite Nat.sub_0_r in H.
Qed.

(** The search for a trailing [[N]], from any index on. *)
Lemma search_bracket_from (w : text) :
  forall s i, skipn i w = s ->
    match search_from bracketNumberEnd w i (length s) with
    | Some m =>
        split_index s = Some (firstn (m_index m - i) s, skipn (m_index m - i) s)
    | None => split_index s = None
    end.
Proof.
  induction s as [|a s' IH]; intros i Hi.
  - cbn [length search_from]. rewrite match_at_bracketNumberEnd, Hi. reflexivity.
  - cbn [length search_from]. rewrite match_at_bracketNumberEnd, Hi.
    cbn [split_index].
    destruct (bracket_number (a :: s')) eqn:E.
    + cbn [m_index]. now rewrite Nat.sub_diag.
    + specialize (IH (S i) (skipn_next _ _ _ _ Hi)).
      destruct (search_from bracketNumberEnd w (S i) (length s')) as [m|] eqn:Es.
      * apply search_from_index in Es.
        replace (m_index m - i) with (S (m_index m - S i)) by lia.
        cbn [firstn skipn]. now rewrite IH.
      * now rewrite IH.
Qed.

Lemma exec_bracketNumberEnd (w : text) :
  match exec bracketNumberEnd w with
  | Some m => split_index w = Some (substr0 w (m_index m), substr w (m_index m))
  | None => split_index w = None
  end.
Proof.
  unfold exec, substr, substr0. pose proof (search_bracket_from w w 0 eq_refl) as H.
  destruct (search_from bracketNumberEnd w 0 (length w)) as [m|]; [|exact H].
  now rewrite Nat.sub_0_r in H.
Qed.

(** The replacement of every [.N.]: from any index on, with enough fuel
    on both sides. *)
Lemma replace_between_from (w : text) :
  forall n s from fuelR fuelB,
    length s <= n -> skipn from w = s -> length s < fuelR -> length s <= fuelB ->
    replace_all_from dotNumberDot in_brackets_dot w from fuelR
    = brackets_between_fuel fuelB s.
Proof.
  induction n as [|n IH]; intros s from fuelR fuelB Hn Hs HR HB.
  - destruct s; [|simpl in Hn; lia].
    destruct fuelR as [|fuelR]; [simpl in HR; lia|].
    cbn [replace_all_from]. rewrite <- length_skipn, Hs. cbn [length search_from].
    rewrite match_at_dotNumberDot, Hs. cbn [dot_number_dot].
    now destruct fuelB.
  - destruct s as [|a s'].
    { destruct fuelR as [|fuelR]; [simpl in HR; lia|].
      cbn [replace_all_from]. rewrite <- length_skipn, Hs. cbn [length search_from].
      rewrite match_at_dotNumberDot, Hs. cbn [dot_number_dot].
      now destruct fuelB. }
    destruct fuelR as [|fuelR]; [simpl in HR; lia|].
    destruct fuelB as [|fuelB]; [simpl in HB; lia|].
    cbn [replace_all_from brackets_between_fuel].
    rewrite <- length_skipn, Hs. cbn [length search_from].
    rewrite match_at_dotNumberDot, Hs.
    destruct (dot_number_dot (a :: s')) as [[nn rest]|] eqn:E.
    + cbn [m_index m_text m_caps]. rewrite Nat.sub_diag. cbn [firstn app length].
      rewrite length_app. cbn [length].
      replace (S (length nn + 1) =? 0)%nat with false by reflexivity.
      apply dot_number_dot_some in E.
      assert (Hrest : skipn (from + S (length nn + 1)) w = rest).
      { rewrite Nat.add_comm, <- skipn_skipn, Hs, E.
        change ("." :: nn ++ "." :: rest) with (("." :: nn) ++ "." :: rest).
        replace (("." :: nn) ++ "." :: rest) with (("." :: nn ++ ["."]) ++ rest)
          by (cbn; now rewrite <- app_assoc).
        rewrite skipn_app.
        replace (S (length nn + 1)) with (length ("." :: nn ++ ["."]))
          by (cbn; now rewrite length_app).
        now rewrite skipn_all, Nat.sub_diag. }
      assert (Hlen : length (a :: s') = S (length nn + 1) + length rest).
      { rewrite E. cbn [length]. rewrite length_app. cbn [length]. lia. }
      rewrite Hlen in Hn, HR, HB.
      rewrite (IH rest (from + S (length nn + 1)) fuelR fuelB) by (auto; lia).
      unfold in_brackets_dot. cbn [cap_text cap Nat.eqb].
      now rewrite <- !app_assoc.
    + pose proof (skipn_next _ _ _ _ Hs) as Hs'.
      cbn [length] in Hn, HR, HB.
      rewrite <- (IH s' (S from) (S fuelR) fuelB) by (auto; lia).
      cbn [replace_all_from]. rewrite <- length_skipn, Hs'.
      destruct (search_from dotNumberDot w (S from) (length s')) as [m|] eqn:Es.
      * apply search_from_index in Es.
        replace (m_index m - from) with (S (m_index m - S from)) by lia.
        reflexivity.
      * reflexivity.
Qed.

Lemma replace_all_dotNumberDot (w : text) :
  replace_all dotNumberDot in_brackets_dot w = brackets_between w.
Proof.
  unfold replace_all, brackets_between.
  apply (replace_between_from w (length w) w 0); auto.
Qed.

Lemma split_not_nil (c : ascii) (s : text) : split c s <> [].
Proof.
  induction s as [|a s IH]; cbn [split]; [discriminate|].
  destruct (ascii_eqb a c); [discriminate|]. now destruct (split c s).
Qed.

Context {G : AbstractQueryGenerator}.

(** The branch for a plain path computes the accessor as described. *)
Lemma compile_path_accessor (path : text) : compile_path path = Ok (accessor path).
Proof.
  unfold compile_path, accessor.
  rewrite replace_all_dotNumberDot, replace_dotNumberEnd.
  destruct (split "." (bracket_last (brackets_between path))) as [|leading rest] eqn:E.
  { now apply split_not_nil in E. }
  pose proof (exec_bracketNumberEnd leading) as H.
  destruct (exec bracketNumberEnd leading) as [m|]; now rewrite H.
Qed.

(** C8, as the code has it.  For a single path that the tokenizer does
    not classify as a compiled JSON expression, the compiler turns every
    [.N.] into [[N].] and a trailing [.N] into [[N]], splits on the dot,
    splits a leading segment that ends in [[N]] into column and index,
    and emits [<col>->>'$<leading dot if any><remaining path>']; the
    text [ = <escaped literal>] is appended exactly when the comparison
    value is truthy.  The argument is left as it was. *)
Theorem accessor_compiler_amended (path : text) (value : JsValue) :
  path <> [] ->
  _checkValidJsonStatement (JsString path) = Some (Ok false) ->
  handleSequelizeMethod (Json None (Some path) value)
  = Some (Ok (accessor path
                ++ (if truthy value then txt " = " ++ escape value else [])),
          Json None (Some path) value).
Proof.
  intros Hne Htok. unfold handleSequelizeMethod.
  apply nonempty_true in Hne. rewrite Hne, Htok, compile_path_accessor.
  destruct (truthy value); [reflexivity|]. now rewrite app_nil_r.
Qed.

End AccessorRefinement.

(* ================================================================== *)
(** * The two patterns of createTableQuery *)
(* ================================================================== *)

Section TablePatterns.

Import QueryGenerator.

Local Open Scope char_scope.



Variable total : nat.







End TablePatterns.

Section TableColumn.

Import QueryGenerator.

Local Open Scope char_scope.




End TableColumn.

(* ================================================================== *)
(** * createTableQuery *)
(* ================================================================== *)

Section CreateTable.

Import Spec QueryGenerator.

Local Open Scope char_scope.

Context {G : AbstractQueryGenerator}.













End CreateTable.

(* ================================================================== *)
(** * Concrete runs *)
(* ================================================================== *)

Section ConcreteRuns.

Import QueryGenerator QueryInterface Reference.

Local Existing Instance Backticks.

(** C1: the filter on the introspection result looks at the first row
    only.  With PRIMARY first and two foreign keys after it, no foreign
    key is dropped: the session holds the introspection and the column
    drop.  With PRIMARY second, a drop is sent for it as for the
    others. *)
Theorem removeColumn_checks_first_row_only :
  let G := MySQLQueryGenerator Backticks in
  let table := TableString (txt "t") in
  let introspection :=
    gen_getForeignKeyQuery (with_schema (txt "db") table) (txt "c") in
  snd (removeColumn
         (scripted [Ok [fk_row "PRIMARY"; fk_row "fk_a"; fk_row "fk_b"]])
         (txt "db") table (txt "c") [])
  = [introspection; txt "ALTER TABLE `t` DROP `c`;"]
  /\ snd (removeColumn
            (scripted [Ok [fk_row "fk_a"; fk_row "PRIMARY"; fk_row "fk_b"]])
            (txt "db") table (txt "c") [])
     = [introspection;
        txt "ALTER TABLE `t` DROP FOREIGN KEY `fk_a`;";
        txt "ALTER TABLE `t` DROP FOREIGN KEY `PRIMARY`;";
        txt "ALTER TABLE `t` DROP FOREIGN KEY `fk_b`;";
        txt "ALTER TABLE `t` DROP `c`;"].
Proof. split; vm_compute; reflexivity. Qed.

Lemma createFunction_three_steps_witness :
  let channel := scripted [Ok []; Throw (ExecutionError (txt "syntax error"))] in
  (exists sql,
     createFunction (QG := MySQLQueryGenerator Backticks) channel
       (Some (txt "f")) (Some []) (Some (txt "int")) (Some (txt "sql"))
       (Some (txt "return 1;")) None []
     = (Throw (ExecutionError (txt "syntax error")),
        [] ++ [txt "DELIMITER __END_FUNCTION__;";
               sql ++ [nl] ++ txt "__END_FUNCTION__"]))
  /\ createFunction (QG := ConstantGenerator (Ok [])) channel
       None None None None None None []
     = (Ok None, []).
Proof.
  intros channel. split.
  - eassert (Hgen : gen_createFunction (QueryGeneratorMethods := MySQLQueryGenerator Backticks)
                      (Some (txt "f")) (Some []) (Some (txt "int")) (Some (txt "sql"))
                      (Some (txt "return 1;")) None = Ok _)
      by (vm_compute; reflexivity).
    eexists.
    pose proof (createFunction_three_steps (QG := MySQLQueryGenerator Backticks)
                  channel _ _ _ _ _ _ [] _ Hgen) as [_ H].
    destruct (H ltac:(discriminate)) as (_ & H2 & _).
    exact (H2 [] _ eq_refl eq_refl).
  - pose proof (createFunction_three_steps (QG := ConstantGenerator (Ok []))
                  channel None None None None None None [] [] eq_refl) as [H _].
    exact (H eq_refl).
Defined.

Lemma removeConstraint_amended_witness :
  let channel := scripted [Ok [constraint_row "UNIQUE" "t" "uq"]] in
  let sql := gen_showConstraintsQuery (QueryGeneratorMethods := MySQLQueryGenerator Backticks)
               (with_schema (txt "db") (TableString (txt "t"))) (Some (txt "uq")) in
  removeConstraint (QG := MySQLQueryGenerator Backticks) channel (txt "db")
    (TableString (txt "t")) (txt "uq") []
  = (Ok [], [] ++ [sql; txt "DROP INDEX `uq` ON `t`"]).
Proof.
  intros channel sql.
  pose proof (removeConstraint_amended (QG := MySQLQueryGenerator Backticks)
                channel (txt "db") (TableString (txt "t")) (txt "uq") [])
    as (_ & _ & _ & H).
  exact (H (constraint_row "UNIQUE" "t" "uq") [] eq_refl
           ltac:(discriminate) ltac:(discriminate)).
Defined.

(** C5 as stated fails on a first row whose kind is empty: the kind is
    not FOREIGN KEY, yet no drop of an index is sent; the operation
    fails with the unknown-constraint error after the introspection
    alone. *)
Lemma removeConstraint_counterexample :
  let row := constraint_row "" "t" "uq" in
  let run := removeConstraint (QG := MySQLQueryGenerator Backticks)
               (scripted [Ok [row]]) (txt "db") (TableString (txt "t")) (txt "uq") [] in
  constraintType row <> txt "FOREIGN KEY"
  /\ fst run = Throw (UnknownConstraintError
                        (txt "Constraint uq on table t does not exist")
                        (txt "uq") (TableString (txt "t")))
  /\ length (snd run) = 1.
Proof. intros row run. split; [discriminate|split; reflexivity]. Qed.

Lemma expandFunctionParamList_amended_witness :
  expandFunctionParamList
    (Some [ {| direction := Some (txt "in"); name := Some (txt "x");
               type := Some (txt "int") |};
            {| direction := Some (txt "OUT"); name := None;
               type := Some (txt "varchar") |} ])
  = Ok (txt "x int, OUT varchar")
  /\ expandFunctionParamList
       (Some [ {| direction := None; name := Some (txt "x"); type := None |} ])
     = Throw (Error (txt "function or trigger used with a parameter without any type"))
  /\ length (List.filter nonempty
               (map Spec.param_text
                  [ {| direction := Some (txt "in"); name := Some (txt "x");
                       type := Some (txt "int") |} ])) = 1.
Proof.
  destruct expandFunctionParamList_amended as (_ & H2 & H3 & H4).
  split; [|split].
  - refine (proj2 (H3 _ _)). repeat constructor; discriminate.
  - apply H2. now constructor.
  - refine (H4 _ _). repeat constructor. eexists; split; [reflexivity|discriminate].
Defined.

(** C6 as stated fails on an entry whose type is the empty string and
    that has no name and no direction: every entry has a type, yet the
    output holds no parameter. *)
Lemma expandFunctionParamList_counterexample :
  let p := {| direction := None; name := None; type := Some [] |} in
  type p <> None
  /\ expand_params [p] [] = Ok []
  /\ expandFunctionParamList (Some [p]) = Ok []
  /\ length (@nil text) <> length [p].
Proof. intros p. split; [discriminate|]. repeat split. discriminate. Qed.



Lemma tokenizer_non_string_witness :
  _checkValidJsonStatement (JsNumber 5) = Some (Ok false).
Proof. exact (proj1 (tokenizer_non_string (JsNumber 5) eq_refl)). Defined.




Lemma accessor_compiler_amended_witness :
  handleSequelizeMethod (Json None (Some (txt "data.0.tags.1")) (JsString (txt "x")))
  = Some (Ok (txt "`data`->>'$[0].tags[1]' = 'x'"),
          Json None (Some (txt "data.0.tags.1")) (JsString (txt "x"))).
Proof.
  refine (accessor_compiler_amended (txt "data.0.tags.1") (JsString (txt "x")) _ _).
  - discriminate.
  - vm_compute. reflexivity.
Defined.

(** C8 as stated fails on a comparison value that is supplied and
    falsy, here the number 0: nothing is appended to the accessor. *)
Lemma accessor_compiler_counterexample :
  let out := txt "`data`->>'$.id'" in
  handleSequelizeMethod (Json None (Some (txt "data.id")) (JsNumber 0))
  = Some (Ok out, Json None (Some (txt "data.id")) (JsNumber 0))
  /\ escape (JsNumber 0) = txt "0"
  /\ includes out (txt " = ") = false.
Proof. repeat split; vm_compute; reflexivity. Qed.

End ConcreteRuns.

(* ================================================================== *)
(** * Text without JSON constructs *)
(* ================================================================== *)

Section PlainText.

Import Spec QueryGenerator Forms.

Local Open Scope char_scope.

Lemma forallb_from {A} (p : A -> bool) (l : list A) (n : nat) :
  forallb p l = true -> forallb p (skipn n l) = true.
Proof.
  intros H. rewrite <- (firstn_skipn n l), forallb_app in H.
  now apply andb_true_iff in H as [_ H].
Qed.

Lemma substr_from_forallb (p : ascii -> bool) (s : text) (i : Z) :
  forallb p s = true -> forallb p (substr_from s i) = true.
Proof. unfold substr_from. destruct (i <? 0)%Z; apply forallb_from. Qed.

Lemma indexOf_paren (s : text) (i : nat) :
  indexOf s (txt "(") = Some i -> forallb no_json_char s = false.
Proof.
  revert i. induction s as [|a s IH]; intros i; [discriminate|].
  rewrite indexOf_cons.
  change (starts_with (txt "(") (a :: s)) with (ascii_eqb "(" a && true).
  rewrite andb_true_r. destruct (ascii_eqb "(" a) eqn:E.
  - apply ascii_eqb_eq in E. subst a. reflexivity.
  - destruct (indexOf s (txt "(")) as [j|]; [|discriminate].
    intros _. cbn [forallb]. rewrite (IH j eq_refl). apply andb_false_r.
Qed.

(** Neither JSON pattern matches in a text without the code units of
    [json_char]. *)
Lemma function_none (w : text) :
  forallb no_json_char w = true -> exec jsonFunctionRegex w = None.
Proof.
  intros Hw. destruct (exec jsonFunctionRegex w) as [m|] eqn:E; [|reflexivity].
  destruct (function_match_advances _ _ E) as (i & Hi & _).
  assert (O : only (ignoreCase jsonFunctionRegex) (fun _ => true)
                (body jsonFunctionRegex) = true) by (vm_compute; reflexivity).
  destruct (exec_consumed _ _ _ _ O E) as (c' & s' & _ & Hs & _).
  apply (forallb_from _ _ (m_index m)) in Hw. rewrite Hs, forallb_app in Hw.
  apply andb_true_iff in Hw as [Hw _]. apply indexOf_paren in Hi. congruence.
Qed.

Lemma operator_none (w : text) :
  forallb no_json_char w = true -> exec jsonOperatorRegex w = None.
Proof.
  intros Hw. destruct (exec jsonOperatorRegex w) as [m|] eqn:E; [|reflexivity].
  assert (O : only (ignoreCase jsonOperatorRegex) (fun _ => true)
                (body jsonOperatorRegex) = true) by (vm_compute; reflexivity).
  destruct (exec_consumed _ _ _ _ O E) as (c' & s' & Hc & _).
  apply consumed_Seq_inv in Hc as (c1 & s1 & H1 & Hc).
  apply consumed_Seq_inv in Hc as (c2 & s2 & H2 & H3).
  eapply (consumed_prefix _ _ (fun _ => true)) in H1 as (m1 & E1 & _ & _);
    [|vm_compute; reflexivity].
  eapply (consumed_prefix _ _ (fun _ => true)) in H2 as (m2 & E2 & _ & _);
    [|vm_compute; reflexivity].
  eapply (consumed_prefix _ _ json_char) in H3 as (m3 & E3 & P3 & L3);
    [|vm_compute; reflexivity].
  match type of L3 with
  | ?x <= _ => let v := eval vm_compute in x in change x with v in L3
  end.
  apply (forallb_from _ _ (m_index m)) in Hw.
  rewrite E1, E2, E3, !forallb_app in Hw.
  apply andb_true_iff in Hw as [_ Hw]. apply andb_true_iff in Hw as [_ Hw].
  apply andb_true_iff in Hw as [Hw _].
  destruct m3 as [|a m3]; [simpl in L3; lia|].
  cbn [forallb] in P3, Hw. apply andb_true_iff in P3 as [Pa _].
  apply andb_true_iff in Hw as [Ha _]. unfold no_json_char in Ha.
  rewrite Pa in Ha. discriminate.
Qed.

(** A pass over such a text records no JSON construct. *)
Lemma scan_step_plain (stmt : text) (st : ScanState) :
  forallb no_json_char stmt = true ->
  match scan_step stmt st with
  | Continue st' | Break st' => hasJsonFunction st' = hasJsonFunction st
  end.
Proof.
  intros Hw. unfold scan_step.
  rewrite function_none, operator_none by now apply substr_from_forallb.
  destruct (exec tokenCaptureRegex _) as [tm|]; [|reflexivity].
  destruct (text_eqb _ (txt "(")); [reflexivity|].
  destruct (text_eqb _ (txt ")")); [reflexivity|].
  destruct (text_eqb _ (txt ";")); reflexivity.
Qed.

Lemma scan_plain (stmt : text) :
  forallb no_json_char stmt = true ->
  forall fuel st st', scan stmt fuel st = Some st' ->
    hasJsonFunction st' = hasJsonFunction st.
Proof.
  intros Hw. induction fuel as [|fuel IH]; intros st st'; cbn [scan];
    destruct (currentIndex st <? Z.of_nat (length stmt))%Z;
    try discriminate; try (now intros [= <-]).
  pose proof (scan_step_plain stmt st Hw) as Hstep.
  destruct (scan_step stmt st) as [st1|st1].
  - intros H. apply IH in H. congruence.
  - intros [= <-]. exact Hstep.
Qed.

(** A pass never clears the record of a JSON construct. *)
Lemma scan_step_keeps (stmt : text) (st : ScanState) :
  hasJsonFunction st = true ->
  match scan_step stmt st with
  | Continue st' | Break st' => hasJsonFunction st' = true
  end.
Proof.
  intros Hst. unfold scan_step.
  destruct (exec jsonFunctionRegex _); [reflexivity|].
  destruct (exec jsonOperatorRegex _); [reflexivity|].
  destruct (exec tokenCaptureRegex _) as [tm|]; [|exact Hst].
  destruct (text_eqb _ (txt "(")); [exact Hst|].
  destruct (text_eqb _ (txt ")")); [exact Hst|].
  destruct (text_eqb _ (txt ";")); exact Hst.
Qed.

Lemma scan_keeps (stmt : text) :
  forall fuel st st',
    hasJsonFunction st = true -> scan stmt fuel st = Some st' ->
    hasJsonFunction st' = true.
Proof.
  induction fuel as [|fuel IH]; intros st st' Hst; cbn [scan];
    destruct (currentIndex st <? Z.of_nat (length stmt))%Z;
    try discriminate; try (now intros [= <-]).
  pose proof (scan_step_keeps stmt st Hst) as Hstep.
  destruct (scan_step stmt st) as [st1|st1].
  - now apply IH.
  - now intros [= <-].
Qed.

Lemma exec_nonempty (re : RegExp) (w : text) (m : MatchResult) :
  exec re w = Some m -> 1 <= length (m_text m) -> w <> [].
Proof.
  intros H Hlen ->. unfold exec in H.
  destruct (search_from_some _ _ _ _ _ H) as (j & _ & Hm).
  destruct (match_at_some _ _ _ _ Hm) as (c & s' & _ & ->).
  cbn [m_text] in Hlen. rewrite skipn_nil in Hlen. cbn in Hlen.
  rewrite firstn_nil in Hlen. simpl in Hlen. lia.
Qed.

(** A statement at whose start one of the two JSON patterns matches is
    not empty, and the scan of it ends with the record of a JSON
    construct. *)
Lemma json_start_nonempty (stmt : text) :
  test jsonFunctionRegex stmt || test jsonOperatorRegex stmt = true -> stmt <> [].
Proof.
  unfold test. intros Hstart.
  destruct (exec jsonFunctionRegex stmt) as [fm|] eqn:Ef.
  - destruct (function_match_advances _ _ Ef) as (i & Hi & _).
    apply (exec_nonempty _ _ _ Ef).
    destruct (m_text fm); [discriminate|simpl; lia].
  - destruct (exec jsonOperatorRegex stmt) as [om|] eqn:Eo; [|discriminate].
    apply (exec_nonempty _ _ _ Eo), (operator_match_advances _ _ Eo).
Qed.

Lemma json_start_recorded (stmt : text) (st : ScanState) :
  test jsonFunctionRegex stmt || test jsonOperatorRegex stmt = true ->
  scan stmt (S (length stmt)) scan_start = Some st ->
  hasJsonFunction st = true.
Proof.
  intros Hstart Hscan. pose proof (json_start_nonempty stmt Hstart) as Hne.
  cbn [scan] in Hscan. cbn [currentIndex scan_start] in Hscan.
  assert (Hlt : (0 <? Z.of_nat (length stmt))%Z = true).
  { apply Z.ltb_lt. destruct stmt; [contradiction|simpl; lia]. }
  rewrite Hlt in Hscan.
  assert (Hstep : exists st1, scan_step stmt scan_start = Continue st1
                              /\ hasJsonFunction st1 = true).
  { unfold scan_step, test in *. cbn [currentIndex scan_start substr_from].
    change (substr_from stmt 0) with stmt.
    destruct (exec jsonFunctionRegex stmt); [eauto|].
    destruct (exec jsonOperatorRegex stmt); [eauto|discriminate]. }
  destruct Hstep as (st1 & Hstep & Hst1). rewrite Hstep in Hscan.
  exact (scan_keeps stmt _ _ _ Hst1 Hscan).
Qed.

Context {G : AbstractQueryGenerator}.

(** A path without the code units of [json_char] goes through the
    accessor compiler. *)
Lemma handle_plain_path (path : text) (value : JsValue) :
  path <> [] -> forallb no_json_char path = true ->
  handleSequelizeMethod (Json None (Some path) value)
  = Some (Ok (Spec.accessor path
                ++ (if truthy value then txt " = " ++ escape value else [])),
          Json None (Some path) value).
Proof.
  intros Hne Hplain.
  destruct (scan_terminates path (S (length path)) scan_start) as (st & Hscan & _).
  { cbn [currentIndex scan_start]. lia. }
  pose proof (scan_plain path Hplain _ _ _ Hscan) as Hflag.
  unfold handleSequelizeMethod, _checkValidJsonStatement, _checkValidJsonStatement_fuel.
  apply nonempty_true in Hne. rewrite Hne. cbn [isString negb]. rewrite Hscan.
  unfold scan_verdict. rewrite Hflag. cbn [hasJsonFunction scan_start andb].
  rewrite compile_path_accessor.
  destruct (truthy value); [reflexivity|]. now rewrite app_nil_r.
Qed.

(** X1. A text that holds no opening parenthesis and none of the
    characters of the JSON operators is never taken for a JSON
    expression: the tokenizer returns [false] and does not throw,
    whatever else the text holds (quotes, closing parentheses,
    semicolons).  So a path of that kind, when it is not empty, always
    goes through the accessor compiler of [handleSequelizeMethod]. *)
Theorem tokenizer_plain_text (stmt : text) (value : JsValue) :
  forallb no_json_char stmt = true ->
  _checkValidJsonStatement (JsString stmt) = Some (Ok false)
  /\ (stmt <> [] ->
      handleSequelizeMethod (Json None (Some stmt) value)
      = Some (Ok (Spec.accessor stmt
                    ++ (if truthy value then txt " = " ++ escape value else [])),
              Json None (Some stmt) value)).
Proof.
  intros Hw. split.
  - destruct (scan_terminates stmt (S (length stmt)) scan_start) as (st & Hscan & _).
    { cbn [currentIndex scan_start]. lia. }
    unfold _checkValidJsonStatement, _checkValidJsonStatement_fuel.
    cbn [isString negb]. rewrite Hscan. unfold scan_verdict.
    now rewrite (scan_plain stmt Hw _ _ _ Hscan).
  - intros Hne. now apply handle_plain_path.
Qed.

(** X2. A statement that starts, after white space, with a JSON
    function call or a JSON operator, as the two patterns of the
    tokenizer have them, is never classified as a plain path: the
    tokenizer returns [true] or throws the error that names the
    statement.  [handleSequelizeMethod] then gives the statement as it
    is, with the comparison when the value is truthy, or throws that
    error; no accessor is compiled from it. *)
Theorem tokenizer_json_start (stmt : text) (value : JsValue) :
  test jsonFunctionRegex stmt || test jsonOperatorRegex stmt = true ->
  let smth : SequelizeMethod Conditions := Json None (Some stmt) value in
  let invalid := Error (txt "Invalid json statement: " ++ stmt) in
  (_checkValidJsonStatement (JsString stmt) = Some (Ok true)
   /\ handleSequelizeMethod smth
      = Some (Ok (stmt ++ (if truthy value then txt " = " ++ escape value else [])),
              smth))
  \/ (_checkValidJsonStatement (JsString stmt) = Some (Throw invalid)
      /\ handleSequelizeMethod smth = Some (Throw invalid, smth)).
Proof.
  intros Hstart smth invalid.
  destruct (scan_terminates stmt (S (length stmt)) scan_start) as (st & Hscan & _).
  { cbn [currentIndex scan_start]. lia. }
  pose proof (json_start_recorded stmt st Hstart Hscan) as Hflag.
  pose proof (json_start_nonempty stmt Hstart) as Hne. apply nonempty_true in Hne.
  unfold smth, handleSequelizeMethod. rewrite Hne.
  unfold _checkValidJsonStatement, _checkValidJsonStatement_fuel.
  cbn [isString negb]. rewrite Hscan. unfold scan_verdict. rewrite Hflag.
  cbn [andb]. destruct (hasInvalidToken st || _).
  - right. split; reflexivity.
  - left. split; [reflexivity|].
    destruct (truthy value); [reflexivity|]. now rewrite app_nil_r.
Qed.

End PlainText.

(* ================================================================== *)
(** * The accessor of a path given by its segments *)
(* ================================================================== *)

Section SegmentPaths.

Import Spec QueryGenerator Forms.

Local Open Scope char_scope.

(** ** The two normalisations *)

Lemma brackets_between_fuel_enough (f1 : nat) :
  forall f2 s, length s <= f1 -> length s <= f2 ->
    brackets_between_fuel f1 s = brackets_between_fuel f2 s.
Proof.
  induction f1 as [|f1 IH]; intros f2 s H1 H2.
  - destruct s; [|simpl in H1; lia]. now destruct f2.
  - destruct f2 as [|f2].
    { destruct s; [reflexivity|simpl in H2; lia]. }
    cbn [brackets_between_fuel].
    destruct (dot_number_dot s) as [[n rest]|] eqn:E.
    + apply dot_number_dot_some in E. subst s. cbn [length] in H1, H2.
      rewrite length_app in H1, H2. cbn [length] in H1, H2.
      rewrite (IH f2 rest); [reflexivity|lia|lia].
    + destruct s as [|a s]; [reflexivity|]. cbn [length] in H1, H2.
      rewrite (IH f2 s); [reflexivity|lia|lia].
Qed.

Lemma brackets_between_none (a : ascii) (s : text) :
  dot_number_dot (a :: s) = None ->
  brackets_between (a :: s) = a :: brackets_between s.
Proof.
  intros H. unfold brackets_between. cbn [length brackets_between_fuel].
  now rewrite H.
Qed.

Lemma brackets_between_some (s n rest : text) :
  dot_number_dot s = Some (n, rest) ->
  brackets_between s = txt "[" ++ n ++ txt "]." ++ brackets_between rest.
Proof.
  intros H. pose proof (dot_number_dot_some _ _ _ H) as Hs.
  unfold brackets_between.
  assert (Hlen : exists f, length s = S f /\ length rest <= f).
  { rewrite Hs. cbn [length]. rewrite length_app. cbn [length].
    eexists. split; [reflexivity|lia]. }
  destruct Hlen as (f & -> & Hf). cbn [brackets_between_fuel]. rewrite H.
  rewrite (brackets_between_fuel_enough f (length rest) rest); [reflexivity|lia|lia].
Qed.

Lemma dot_number_dot_other (a : ascii) (s : text) :
  a <> "." -> dot_number_dot (a :: s) = None.
Proof.
  intros Ha. unfold dot_number_dot. destruct s as [|d s2]; [reflexivity|].
  destruct (ascii_eqb a ".") eqn:E; [|reflexivity].
  apply ascii_eqb_eq in E. contradiction.
Qed.

Lemma dot_number_other (a : ascii) (s : text) : a <> "." -> dot_number (a :: s) = None.
Proof.
  intros Ha. unfold dot_number. destruct s as [|d s2]; [reflexivity|].
  destruct (ascii_eqb a ".") eqn:E; [|reflexivity].
  apply ascii_eqb_eq in E. contradiction.
Qed.

(** What the scans leave alone: a run without dots. *)
Lemma brackets_between_run (pre s : text) :
  (forall a, In a pre -> a <> ".") ->
  brackets_between (pre ++ s) = pre ++ brackets_between s.
Proof.
  induction pre as [|a pre IH]; intros Hpre; [reflexivity|].
  cbn [app]. rewrite brackets_between_none.
  - rewrite IH; [reflexivity|]. intros b Hb. apply Hpre. now right.
  - apply dot_number_dot_other, Hpre. now left.
Qed.

Lemma bracket_last_run (pre s : text) :
  (forall a, In a pre -> a <> ".") ->
  bracket_last (pre ++ s) = pre ++ bracket_last s.
Proof.
  induction pre as [|a pre IH]; intros Hpre; [reflexivity|].
  cbn [app bracket_last]. rewrite dot_number_other by (apply Hpre; now left).
  rewrite IH; [reflexivity|]. intros b Hb. apply Hpre. now right.
Qed.



Lemma span_run (p : ascii -> bool) (u v : text) :
  forallb p u = true ->
  match v with b :: _ => p b = false | [] => True end ->
  span p (u ++ v) = (u, v).
Proof.
  intros Hu Hv. induction u as [|a u IH]; cbn [app].
  - destruct v as [|b v]; [reflexivity|]. cbn [span]. now rewrite Hv.
  - cbn [forallb] in Hu. apply andb_true_iff in Hu as [Ha Hu].
    cbn [span]. now rewrite Ha, (IH Hu).
Qed.

Lemma index_ok_inv (n : text) :
  index_ok n = true -> exists d n', n = d :: n' /\ is_digit d = true
                                    /\ forallb is_digit n' = true.
Proof.
  unfold index_ok. destruct n as [|d n']; [discriminate|]. cbn [nonempty forallb andb].
  intros H. apply andb_true_iff in H as [Hd Hn]. now exists d, n'.
Qed.

Lemma digit_not_dot (a : ascii) : is_digit a = true -> a <> ".".
Proof. intros H ->. discriminate. Qed.

Lemma digits_no_dot (n : text) :
  forallb is_digit n = true -> forall a, In a n -> a <> ".".
Proof.
  intros H a Ha. rewrite forallb_forall in H. apply digit_not_dot, H, Ha.
Qed.

Lemma index_no_dot (n : text) : index_ok n = true -> forall a, In a n -> a <> ".".
Proof.
  unfold index_ok. intros H. apply andb_true_iff in H as [_ H].
  now apply digits_no_dot.
Qed.

Lemma bracketed_no_dot (n : text) :
  index_ok n = true -> forall a, In a (txt "[" ++ n ++ txt "]") -> a <> ".".
Proof.
  intros Hn a Ha. change (In a ("[" :: n ++ ["]"])) in Ha.
  destruct Ha as [<-|Ha]; [discriminate|].
  apply in_app_iff in Ha as [Ha|[<-|[]]]; [|discriminate].
  exact (index_no_dot n Hn a Ha).
Qed.

Lemma dot_number_dot_index (n rest : text) :
  index_ok n = true -> dot_number_dot ("." :: n ++ "." :: rest) = Some (n, rest).
Proof.
  intros Hn. destruct (index_ok_inv n Hn) as (d & n' & -> & Hd & Hn').
  unfold dot_number_dot. cbn [app]. rewrite Hd.
  change (ascii_eqb "." "." && true) with true. cbv iota.
  rewrite (span_run is_digit n' ("." :: rest) Hn' eq_refl). reflexivity.
Qed.


Lemma dot_number_index (n : text) :
  index_ok n = true -> dot_number ("." :: n) = Some n.
Proof.
  intros Hn. destruct (index_ok_inv n Hn) as (d & n' & -> & Hd & Hn').
  unfold dot_number. now rewrite Hd, Hn'.
Qed.

Lemma brackets_between_digits (n : text) :
  forallb is_digit n = true -> brackets_between n = n.
Proof.
  intros Hn. rewrite <- (app_nil_r n) at 1.
  rewrite brackets_between_run by now apply digits_no_dot.
  apply app_nil_r.
Qed.

(** ** Keys, indices and columns *)

Lemma key_char_inv (a : ascii) :
  key_char a = true -> a <> "." /\ no_json_char a = true.
Proof.
  unfold key_char. intros H. apply andb_true_iff in H as [Hd Hj].
  split; [|exact Hj]. intros ->. discriminate.
Qed.


Lemma column_ok_inv (col : text) :
  column_ok col = true ->
  col <> [] /\ (forall a, In a col -> a <> "." /\ a <> "[")
  /\ forallb no_json_char col = true.
Proof.
  unfold column_ok. intros H. apply andb_true_iff in H as [Hne Hc].
  apply nonempty_true in Hne. rewrite forallb_forall in Hc. repeat split.
  - exact Hne.
  - apply Hc in H. unfold column_char in H. apply andb_true_iff in H as [H _].
    now apply key_char_inv in H.
  - apply Hc in H. unfold column_char in H. apply andb_true_iff in H as [_ H].
    intros ->. discriminate.
  - apply forallb_forall. intros a Ha. apply Hc in Ha. unfold column_char in Ha.
    apply andb_true_iff in Ha as [Ha _]. now apply key_char_inv in Ha.
Qed.

Lemma digits_no_json (n : text) :
  forallb is_digit n = true -> forallb no_json_char n = true.
Proof.
  rewrite !forallb_forall. intros H a Ha. specialize (H a Ha).
  unfold no_json_char, json_char. cbn [txt list_ascii_of_string existsb].
  repeat match goal with
         | |- context [ascii_eqb a ?c] =>
             let E := fresh in
             destruct (ascii_eqb a c) eqn:E;
             [apply ascii_eqb_eq in E; subst a; discriminate|]
         end.
  reflexivity.
Qed.






(** ** Splitting and joining *)


Lemma split_no_dot (pre : text) :
  (forall a, In a pre -> a <> ".") -> split "." pre = [pre].
Proof.
  induction pre as [|a pre IH]; intros Hpre; [reflexivity|].
  cbn [split]. destruct (ascii_eqb a ".") eqn:E.
  - apply ascii_eqb_eq in E. exfalso. apply (Hpre a); [now left|exact E].
  - rewrite IH; [reflexivity|]. intros b Hb. apply Hpre. now right.
Qed.


Lemma bracket_number_inv (s : text) :
  bracket_number s = true ->
  exists ds, s = "[" :: ds ++ ["]"] /\ forallb is_digit ds = true.
Proof.
  unfold bracket_number. destruct s as [|a [|d s2]]; try discriminate.
  intros H. apply andb_true_iff in H as [H Hend].
  apply andb_true_iff in H as [Ha Hd]. apply ascii_eqb_eq in Ha. subst a.
  pose proof (span_app is_digit s2) as Happ.
  assert (Hfst : forallb is_digit (fst (span is_digit s2)) = true).
  { clear. induction s2 as [|a s2 IH]; [reflexivity|]. cbn [span].
    destruct (is_digit a) eqn:E; [|reflexivity]. cbn [fst forallb].
    now rewrite E, IH. }
  destruct (snd (span is_digit s2)) as [|b [|b' s3]]; try discriminate.
  apply ascii_eqb_eq in Hend. subst b.
  exists (d :: fst (span is_digit s2)). split.
  - cbn [app]. now rewrite Happ.
  - cbn [forallb]. now rewrite Hd, Hfst.
Qed.

Lemma bracket_number_index (n : text) :
  index_ok n = true -> bracket_number (txt "[" ++ n ++ txt "]") = true.
Proof.
  intros Hn. destruct (index_ok_inv n Hn) as (d & n' & -> & Hd & Hn').
  unfold bracket_number. cbn [txt list_ascii_of_string app]. rewrite Hd.
  change (ascii_eqb "[" "[" && true) with true. cbn [andb].
  rewrite (span_run is_digit n' ["]"] Hn' eq_refl). reflexivity.
Qed.

(** No bracketed number starts before an opening bracket that is not
    its own. *)
Lemma bracket_number_before (x y : text) :
  x <> [] -> bracket_number (x ++ "[" :: y) = false.
Proof.
  intros Hx. destruct (bracket_number (x ++ "[" :: y)) eqn:E; [|reflexivity].
  apply bracket_number_inv in E as (ds & E & Hds).
  destruct x as [|x0 x]; [contradiction|]. cbn [app] in E. injection E as _ E.
  assert (Hin : In "[" (ds ++ ["]"])) by (rewrite <- E; apply in_elt).
  apply in_app_iff in Hin as [Hin|[Hin|[]]]; [|discriminate].
  rewrite forallb_forall in Hds. apply Hds in Hin. discriminate.
Qed.

Lemma split_index_index (pre n : text) :
  index_ok n = true ->
  split_index (pre ++ txt "[" ++ n ++ txt "]") = Some (pre, txt "[" ++ n ++ txt "]").
Proof.
  intros Hn. induction pre as [|a pre IH].
  - cbn [app]. pose proof (bracket_number_index n Hn) as Hb.
    destruct (txt "[" ++ n ++ txt "]") as [|b s] eqn:E; [discriminate|].
    cbn [split_index]. now rewrite Hb.
  - cbn [app split_index].
    change (a :: pre ++ txt "[" ++ n ++ txt "]")
      with ((a :: pre) ++ "[" :: n ++ txt "]").
    rewrite bracket_number_before by discriminate.
    change ((a :: pre) ++ "[" :: n ++ txt "]") with (a :: (pre ++ txt "[" ++ n ++ txt "]")).
    cbn [split_index]. 
    now rewrite IH.
Qed.


Context {G : AbstractQueryGenerator}.







(** X4. Two array indices in a row are not both index steps: in
    [col.n.m] the first index stays in the column name, so the column
    read is [col[n]] and the JSON path is [$[m]]. *)
Theorem accessor_adjacent_indices (col n m : text) (value : JsValue) :
  column_ok col = true -> index_ok n = true -> index_ok m = true ->
  handleSequelizeMethod (Json None (Some (dotted col [Index n; Index m])) value)
  = Some (Ok (quoteIdentifier (col ++ txt "[" ++ n ++ txt "]")
                ++ txt "->>'$[" ++ m ++ txt "]'"
                ++ (if truthy value then txt " = " ++ escape value else [])),
          Json None (Some (dotted col [Index n; Index m])) value).
Proof.
  intros Hcol Hn Hm.
  pose proof (column_ok_inv col Hcol) as (Hne & Hchars & Hplain).
  assert (Hdot : forall a, In a col -> a <> ".") by (intros a Ha; now apply Hchars).
  pose proof Hn as Hn'. pose proof Hm as Hm'. unfold index_ok in Hn', Hm'.
  apply andb_true_iff in Hn' as [_ Hdn]. apply andb_true_iff in Hm' as [_ Hdm].
  unfold dotted. cbn [map concat dotted_segment app]. rewrite app_nil_r.
  rewrite handle_plain_path.
  - unfold accessor.
    rewrite brackets_between_run by exact Hdot.
    rewrite (brackets_between_some _ n m) by now apply dot_number_dot_index.
    rewrite (brackets_between_digits m Hdm).
    rewrite bracket_last_run by exact Hdot.
    replace (txt "[" ++ n ++ txt "]." ++ m) with ((txt "[" ++ n ++ txt "]") ++ "." :: m)
      by (cbn [txt list_ascii_of_string app]; now rewrite <- app_assoc).
    rewrite bracket_last_run by now apply bracketed_no_dot.
    cbn [bracket_last]. rewrite (dot_number_index m Hm).
    rewrite app_assoc.
    rewrite split_no_dot.
    + rewrite split_index_index by exact Hm. cbn [join].
      now rewrite <- !app_assoc.
    + intros a Ha. apply in_app_iff in Ha as [Ha|Ha].
      * apply in_app_iff in Ha as [Ha|Ha]; [now apply Hdot|].
        exact (bracketed_no_dot n Hn a Ha).
      * exact (bracketed_no_dot m Hm a Ha).
  - destruct col; [contradiction|discriminate].
  - rewrite forallb_app, Hplain. cbn [forallb andb].
    rewrite forallb_app, (digits_no_json n Hdn). cbn [forallb andb].
    now rewrite (digits_no_json m Hdm).
Qed.


End SegmentPaths.

(* ================================================================== *)
(** * The cast types of handleSequelizeMethod *)
(* ================================================================== *)

Section CastTypes.

Import QueryGenerator Forms.

Lemma rx_Chr_i (total : nat) (x : ascii) (k : cont) c s :
  rx true total (Chr x) k c s
  = match s with
    | a :: s' => if ascii_eqb (upper x) (upper a) then k c s' else None
    | [] => None
    end.
Proof.
  destruct s as [|a s']; [reflexivity|]. cbn [rx Chr].
  replace (xorb false (in_class true [CChar x] a)) with (ascii_eqb (upper x) (upper a));
    [reflexivity|].
  cbn [xorb in_class existsb in_item canon]. now rewrite orb_false_r.
Qed.

Lemma rx_Lit_i (total : nat) (t : text) (k : cont) c s :
  rx true total (Lit t) k c s
  = if starts_with_canon true t s then k c (skipn (length t) s) else None.
Proof.
  revert k c s. induction t as [|a t IH]; intros k c s; [reflexivity|].
  assert (Hstep : rx true total (Lit (a :: t)) k c s
                  = rx true total (Chr a) (rx true total (Lit t) k) c s).
  { destruct t; reflexivity. }
  rewrite Hstep, rx_Chr_i. destruct s as [|b s']; [reflexivity|].
  cbn [starts_with_canon length skipn canon].
  destruct (ascii_eqb (upper a) (upper b)); [|reflexivity].
  cbn [andb]. apply IH.
Qed.

Lemma starts_with_canon_split (t s : text) :
  starts_with_canon true t s = true
  <-> exists x v, s = x ++ v /\ toUpperCase x = toUpperCase t.
Proof.
  revert s. induction t as [|a t IH]; intros s.
  - split; [now exists [], s|reflexivity].
  - destruct s as [|b s]; cbn [starts_with_canon canon].
    + split; [discriminate|]. intros (x & v & Hs & Hx).
      symmetry in Hs. apply app_eq_nil in Hs as [-> _]. discriminate.
    + rewrite andb_true_iff, ascii_eqb_eq, IH. split.
      * intros (Hab & x & v & -> & Hx). exists (b :: x), v. split; [reflexivity|].
        cbn [toUpperCase map]. unfold toUpperCase in Hx. now rewrite Hx, Hab.
      * intros (x & v & Hs & Hx). destruct x as [|x0 x]; [discriminate|].
        cbn [app] in Hs. injection Hs as -> ->.
        cbn [toUpperCase map] in Hx. injection Hx as Hx0 Hx.
        split; [now symmetry|]. now exists x, v.
Qed.

Lemma match_at_word (w : string) (s : text) (i : nat) :
  (exists m, match_at (word_i w) s i = Some m)
  <-> starts_with_canon true (txt w) (skipn i s) = true.
Proof.
  unfold match_at. change (ignoreCase (word_i w)) with true.
  change (body (word_i w)) with (Lit (txt w)). rewrite rx_Lit_i.
  destruct (starts_with_canon true (txt w) (skipn i s)); split; intros H;
    eauto; try discriminate. now destruct H.
Qed.

Lemma search_from_word (w : string) (s : text) :
  forall fuel i,
    (exists m, search_from (word_i w) s i fuel = Some m)
    <-> exists j, i <= j <= i + fuel
                  /\ starts_with_canon true (txt w) (skipn j s) = true.
Proof.
  induction fuel as [|fuel IH]; intros i; cbn [search_from].
  - destruct (match_at (word_i w) s i) as [m|] eqn:E.
    + split; [|eauto]. intros _. exists i. split; [lia|].
      apply match_at_word. eauto.
    + split; [now intros [m Hm]|]. intros (j & Hj & Hs).
      assert (j = i) as -> by lia. apply match_at_word in Hs as (m & Hm). congruence.
  - destruct (match_at (word_i w) s i) as [m|] eqn:E.
    + split; [|eauto]. intros _. exists i. split; [lia|].
      apply match_at_word. eauto.
    + rewrite IH. split.
      * intros (j & Hj & Hs). exists j. split; [lia|exact Hs].
      * intros (j & Hj & Hs). exists j. split; [|exact Hs].
        destruct (Nat.eq_dec j i) as [->|Hne]; [|lia].
        apply match_at_word in Hs as (m & Hm). congruence.
Qed.

(** [/w/i.test(s)] holds exactly when [w] occurs in [s], letter case
    apart. *)
Lemma test_word (w : string) (s : text) :
  test (word_i w) s = true <-> contains_ci (txt w) s.
Proof.
  unfold test, exec, contains_ci.
  pose proof (search_from_word w s (length s) 0) as H.
  destruct (search_from (word_i w) s 0 (length s)) as [m|].
  - split; [|reflexivity]. intros _.
    destruct (proj1 H) as (j & _ & Hs); [eauto|].
    apply starts_with_canon_split in Hs as (x & v & Hs & Hx).
    exists (firstn j s), x, v. split; [|exact Hx].
    now rewrite <- Hs, firstn_skipn.
  - split; [discriminate|]. intros (u & x & v & -> & Hx).
    destruct (proj2 H) as (m & Hm); [|discriminate].
    exists (length u). split; [rewrite !length_app; lia|].
    rewrite skipn_app, skipn_all, Nat.sub_diag. cbn [app skipn].
    apply starts_with_canon_split. now exists x, v.
Qed.

(** X6. The type a cast is rewritten to, by what the type text holds,
    letter case apart: [timestamp] gives [datetime]; otherwise
    [boolean] in a JSON cast gives [char]; otherwise
    [double precision], [boolean] or [integer] gives [decimal];
    otherwise [text] gives [char]; otherwise the type is kept. *)
Theorem cast_type_table (c : CastMethod) :
  let holds (w : string) := contains_ci (txt w) (cast_type c) in
  (holds "timestamp" -> remap_cast_type c = txt "datetime")
  /\ (~ holds "timestamp" -> cast_json c = true -> holds "boolean" ->
      remap_cast_type c = txt "char")
  /\ (~ holds "timestamp" -> ~ (cast_json c = true /\ holds "boolean") ->
      holds "double precision" \/ holds "boolean" \/ holds "integer" ->
      remap_cast_type c = txt "decimal")
  /\ (~ holds "timestamp" -> ~ holds "boolean" -> ~ holds "double precision" ->
      ~ holds "integer" -> holds "text" ->
      remap_cast_type c = txt "char")
  /\ (~ holds "timestamp" -> ~ holds "boolean" -> ~ holds "double precision" ->
      ~ holds "integer" -> ~ holds "text" ->
      remap_cast_type c = cast_type c).
Proof.
  intros holds. unfold remap_cast_type.
  assert (Hiff : forall w, test (word_i w) (cast_type c) = true <-> holds w)
    by (intros w; apply test_word).
  assert (Hno : forall w, ~ holds w -> test (word_i w) (cast_type c) = false).
  { intros w H. destruct (test (word_i w) (cast_type c)) eqn:E; [|reflexivity].
    apply Hiff in E. contradiction. }
  repeat split.
  - intros H. apply Hiff in H. now rewrite H.
  - intros H1 Hj H2. apply Hiff in H2. now rewrite (Hno _ H1), Hj, H2.
  - intros H1 Hjb H.
    rewrite (Hno _ H1).
    assert (Hb : cast_json c && test (word_i "boolean") (cast_type c) = false).
    { destruct (cast_json c) eqn:Ej; [|reflexivity].
      destruct (test (word_i "boolean") (cast_type c)) eqn:Eb; [|reflexivity].
      apply Hiff in Eb. exfalso. apply Hjb. auto. }
    rewrite Hb.
    destruct H as [H|[H|H]]; apply Hiff in H; rewrite H;
      now rewrite ?orb_true_r.
  - intros H1 H2 H3 H4 H5. apply Hiff in H5.
    rewrite (Hno _ H1), (Hno _ H2), (Hno _ H3), (Hno _ H4), H5.
    now rewrite andb_false_r.
  - intros H1 H2 H3 H4 H5.
    rewrite (Hno _ H1), (Hno _ H2), (Hno _ H3), (Hno _ H4), (Hno _ H5).
    now rewrite andb_false_r.
Qed.

End CastTypes.

(* ================================================================== *)
(** * removeColumn on a column with foreign keys *)
(* ================================================================== *)

Section ForeignKeyDrops.

Import QueryInterface.

Context {QG : QueryGeneratorMethods}.
Variable channel : Channel.
Variable database : text.





End ForeignKeyDrops.

(* ================================================================== *)
(** * The text of createFunction and what the interface does with it *)
(* ================================================================== *)

Section RoutineText.

Import QueryGenerator Forms.

Local Open Scope char_scope.

Lemma match_at_newlineRegex (w : text) (i : nat) :
  match_at newlineRegex w i
  = match skipn i w with
    | a :: _ => if ascii_eqb nl a
                then Some {| m_index := i; m_text := [a]; m_caps := [] |}
                else None
    | [] => None
    end.
Proof.
  unfold match_at. change (ignoreCase newlineRegex) with false.
  change (body newlineRegex) with (Chr nl). rewrite rx_Chr.
  destruct (skipn i w) as [|a s']; [reflexivity|].
  destruct (ascii_eqb nl a); [|reflexivity].
  cbn [length]. replace (S (length s') - length s') with 1 by lia. reflexivity.
Qed.

(** The replacement of every newline, from any index on. *)
Lemma replace_newlines_from (w : text) :
  forall s from fuel,
    skipn from w = s -> length s < fuel ->
    replace_all_from newlineRegex (fun _ => [nl; tab]) w from fuel = indent s.
Proof.
  induction s as [|a s' IH]; intros from fuel Hs Hfuel.
  - destruct fuel as [|fuel]; [simpl in Hfuel; lia|].
    cbn [replace_all_from]. rewrite <- length_skipn, Hs. cbn [length search_from].
    now rewrite match_at_newlineRegex, Hs.
  - destruct fuel as [|fuel]; [simpl in Hfuel; lia|].
    cbn [replace_all_from]. rewrite <- length_skipn, Hs. cbn [length search_from].
    rewrite match_at_newlineRegex, Hs.
    pose proof (skipn_next _ _ _ _ Hs) as Hs'.
    cbn [length] in Hfuel.
    destruct (ascii_eqb nl a) eqn:Ea.
    + cbn [m_index m_text m_caps length Nat.eqb]. rewrite Nat.sub_diag.
      cbn [firstn app]. rewrite Nat.add_1_r, (IH (S from) fuel Hs') by lia.
      unfold indent. cbn [flat_map]. rewrite ascii_eqb_sym, Ea. reflexivity.
    + assert (Hind : indent (a :: s') = a :: indent s').
      { unfold indent. cbn [flat_map]. now rewrite ascii_eqb_sym, Ea. }
      rewrite Hind, <- (IH (S from) (S fuel) Hs') by lia.
      cbn [replace_all_from]. rewrite <- length_skipn, Hs'.
      destruct (search_from newlineRegex w (S from) (length s')) as [m|] eqn:Es.
      * apply search_from_index in Es.
        replace (m_index m - from) with (S (m_index m - S from)) by lia.
        reflexivity.
      * reflexivity.
Qed.

Lemma replace_newlines (w : text) :
  replace_all newlineRegex (fun _ => [nl; tab]) w = indent w.
Proof. unfold replace_all. apply replace_newlines_from; [reflexivity|lia]. Qed.

Lemma typed_or_not (l : list RoutineParameter) :
  Forall (fun p => type p <> None) l \/ Exists (fun p => type p = None) l.
Proof.
  induction l as [|p l [IH|IH]].
  - left. constructor.
  - destruct (type p) as [ty|] eqn:E.
    + left. constructor; [congruence|exact IH].
    + right. now constructor.
  - right. now constructor 2.
Qed.

Context {G : AbstractQueryGenerator}.

(** X8. [createFunction] of the generator returns a text exactly when
    the function name, the return type, the language and the body are
    non-empty strings and the parameters are an array whose entries all
    have a type. *)
Theorem createFunction_succeeds_iff
    (functionName : option text) (params : option (list RoutineParameter))
    (returnType language body : option text) (options : option (list text)) :
  (exists sql,
     createFunction functionName params returnType language body options = Ok sql)
  <-> (present functionName /\ present returnType /\ present language /\ present body
       /\ exists l, params = Some l /\ Forall (fun p => type p <> None) l).
Proof.
  unfold createFunction, present. split.
  - intros (sql & H).
    destruct functionName as [fn|], returnType as [rt|], language as [lg|],
      body as [bd|]; try discriminate.
    destruct (nonempty fn) eqn:Hfn, (nonempty rt) eqn:Hrt, (nonempty lg) eqn:Hlg,
      (nonempty bd) eqn:Hbd; try discriminate.
    apply nonempty_true in Hfn, Hrt, Hlg, Hbd. cbn [andb] in H.
    repeat (split; [eauto|]).
    destruct params as [l|]; [|discriminate]. exists l. split; [reflexivity|].
    destruct (typed_or_not l) as [Hall|Hex]; [exact Hall|].
    unfold expandFunctionParamList in H.
    now rewrite (expand_params_untyped l [] Hex) in H.
  - intros ((fn & -> & Hfn) & (rt & -> & Hrt) & (lg & -> & Hlg) & (bd & -> & Hbd)
            & l & -> & Hall).
    apply nonempty_true in Hfn, Hrt, Hlg, Hbd. rewrite Hfn, Hrt, Hlg, Hbd.
    cbn [andb]. unfold expandFunctionParamList.
    rewrite (expand_params_typed l [] Hall). eauto.
Qed.

(** X9. The text of [createFunction] in closed form: the parameter
    texts that are not empty, separated by commas; the return type; the
    options, each on a line of its own behind a tab; the body with a tab
    after each of its newlines.  The language must be given but is
    written nowhere: the text is the same for every language. *)
Theorem createFunction_text
    (functionName returnType language body : text) (params : list RoutineParameter)
    (options : option (list text)) :
  functionName <> [] -> returnType <> [] -> language <> [] -> body <> [] ->
  Forall (fun p => type p <> None) params ->
  createFunction (Some functionName) (Some params) (Some returnType) (Some language)
    (Some body) options
  = Ok (txt "CREATE FUNCTION " ++ functionName ++ txt "("
          ++ join (txt ", ") (List.filter nonempty (map Spec.param_text params))
          ++ txt ")" ++ [nl]
          ++ spaces 8 ++ txt "RETURNS " ++ returnType ++ [nl]
          ++ spaces 8 ++ expandOptions options ++ [nl]
          ++ spaces 6 ++ txt "BEGIN" ++ [nl]
          ++ spaces 8 ++ indent body ++ [nl]
          ++ spaces 6 ++ txt "END;").
Proof.
  intros Hfn Hrt Hlg Hbd Hall. unfold createFunction.
  apply nonempty_true in Hfn, Hrt, Hlg, Hbd. rewrite Hfn, Hrt, Hlg, Hbd.
  cbn [andb]. unfold expandFunctionParamList.
  rewrite (expand_params_typed params [] Hall). cbn [app].
  now rewrite replace_newlines.
Qed.

(** X10. With the MySQL generator the interface's [createFunction] never
    resolves without having sent anything: when the generator throws,
    the operation fails with that error and sends nothing; otherwise the
    generated text starts with CREATE FUNCTION, so it is not empty, and
    the delimiter switch is the next statement of the session. *)
Theorem createFunction_never_silent (channel : QueryInterface.Channel)
    (functionName : option text) (params : option (list RoutineParameter))
    (returnType language body : option text) (options : option (list text))
    (log : QueryInterface.Log) :
  let run := QueryInterface.createFunction (QG := MySQLQueryGenerator G) channel
               functionName params returnType language body options log in
  match createFunction functionName params returnType language body options with
  | Throw e => run = (Throw e, log)
  | Ok sql =>
      starts_with (txt "CREATE FUNCTION ") sql = true
      /\ (exists rest, snd run = log ++ txt "DELIMITER __END_FUNCTION__;" :: rest)
      /\ fst run <> Ok None
  end.
Proof.
  intros run. subst run.
  unfold QueryInterface.createFunction, QueryInterface.lift, QueryInterface.then_.
  cbn [gen_createFunction MySQLQueryGenerator].
  destruct (createFunction functionName params returnType language body options)
    as [sql|e] eqn:Hgen; [|reflexivity].
  assert (Hstart : starts_with (txt "CREATE FUNCTION ") sql = true).
  { unfold createFunction in Hgen.
    destruct functionName as [fn|], returnType as [rt|], language as [lg|],
      body as [bd|]; try discriminate.
    destruct (nonempty fn && nonempty rt && nonempty lg && nonempty bd);
      [|discriminate].
    destruct (expandFunctionParamList params); [|discriminate].
    injection Hgen as <-. reflexivity. }
  split; [exact Hstart|].
  destruct sql as [|a sql]; [discriminate|].
  change (nonempty (a :: sql)) with true. cbv iota.
  unfold QueryInterface.query, QueryInterface.resolve, QueryInterface.delimiter.
  change (txt "DELIMITER " ++ txt "__END_FUNCTION__" ++ txt ";")
    with (txt "DELIMITER __END_FUNCTION__;").
  destruct (channel log _) as [r1|e1]; cbn [fst snd].
  2:{ split; [now exists []|discriminate]. }
  destruct (channel (log ++ _) _) as [r2|e2]; cbn [fst snd].
  2:{ split; [eexists; now rewrite <- app_assoc|discriminate]. }
  destruct (channel ((log ++ _) ++ _) _) as [r3|e3]; cbn [fst snd];
    (split; [eexists; now rewrite <- !app_assoc|discriminate]).
Qed.

End RoutineText.

(* ================================================================== *)
(** * When createTableQuery can move a reference, and where it cuts *)
(* ================================================================== *)

Section ReferenceCut.

Import Spec QueryGenerator Forms.

Local Open Scope char_scope.










Context {G : AbstractQueryGenerator}.








End ReferenceCut.

(* ================================================================== *)
(** * From column definitions to the table statement *)
(* ================================================================== *)

Section ModelColumns.

Import Spec QueryGenerator Forms.

Local Open Scope char_scope.

Context {G : AbstractQueryGenerator}.
Variable defaultValueSchemable : JsValue -> bool.






End ModelColumns.

(* ================================================================== *)
(** * Further concrete runs *)
(* ================================================================== *)

Section FurtherRuns.

Import QueryGenerator QueryInterface Reference Forms.

Local Existing Instance Backticks.

Lemma tokenizer_plain_text_witness :
  _checkValidJsonStatement (JsString (txt "profile.name; drop)")) = Some (Ok false)
  /\ handleSequelizeMethod (Json None (Some (txt "profile.name; drop)")) JsUndefined)
     = Some (Ok (txt "`profile`->>'$.name; drop)'"),
             Json None (Some (txt "profile.name; drop)")) JsUndefined).
Proof.
  destruct (tokenizer_plain_text (txt "profile.name; drop)") JsUndefined eq_refl)
    as [Htok Hhandle].
  split; [exact Htok|]. rewrite Hhandle by discriminate. vm_compute. reflexivity.
Defined.

Lemma tokenizer_json_start_witness :
  let stmt := txt "json_extract(a, '$.b')" in
  let smth : SequelizeMethod unit := Json None (Some stmt) JsUndefined in
  let invalid := Error (txt "Invalid json statement: " ++ stmt) in
  (_checkValidJsonStatement (JsString stmt) = Some (Ok true)
   /\ handleSequelizeMethod smth = Some (Ok (stmt ++ []), smth))
  \/ (_checkValidJsonStatement (JsString stmt) = Some (Throw invalid)
      /\ handleSequelizeMethod smth = Some (Throw invalid, smth)).
Proof.
  apply (tokenizer_json_start (G := Backticks) (txt "json_extract(a, '$.b')")
           JsUndefined).
  vm_compute. reflexivity.
Defined.


Lemma accessor_adjacent_indices_witness :
  handleSequelizeMethod (G := Reference.Backticks)
    (Json None (Some (txt "grid.2.5")) JsUndefined)
  = Some (Ok (txt "`grid[2]`->>'$[5]'"),
          Json None (Some (txt "grid.2.5")) JsUndefined).
Proof.
  exact (accessor_adjacent_indices (G := Reference.Backticks) (txt "grid") (txt "2")
           (txt "5") JsUndefined eq_refl eq_refl eq_refl).
Defined.


Lemma cast_type_table_witness :
  remap_cast_type {| cast_val := JsNull; cast_type := txt "Timestamp(6)";
                     cast_json := false |}
  = txt "datetime"
  /\ remap_cast_type {| cast_val := JsNull; cast_type := txt "BOOLEAN";
                        cast_json := true |}
     = txt "char"
  /\ remap_cast_type {| cast_val := JsNull; cast_type := txt "BOOLEAN";
                        cast_json := false |}
     = txt "decimal".
Proof.
  assert (Hno : ~ contains_ci (txt "timestamp") (txt "BOOLEAN")).
  { intros H. apply test_word in H. vm_compute in H. discriminate. }
  assert (Hbool : contains_ci (txt "boolean") (txt "BOOLEAN")).
  { exists [], (txt "BOOLEAN"), []. split; reflexivity. }
  split; [|split].
  - apply (proj1 (cast_type_table
                    {| cast_val := JsNull; cast_type := txt "Timestamp(6)";
                       cast_json := false |})).
    exists [], (txt "Timestamp"), (txt "(6)"). split; reflexivity.
  - apply (proj1 (proj2 (cast_type_table
                           {| cast_val := JsNull; cast_type := txt "BOOLEAN";
                              cast_json := true |}))); auto.
  - apply (proj1 (proj2 (proj2 (cast_type_table
                                  {| cast_val := JsNull; cast_type := txt "BOOLEAN";
                                     cast_json := false |})))); auto.
    intros [H _]. discriminate.
Defined.


Lemma createFunction_succeeds_iff_witness :
  exists sql,
    QueryGenerator.createFunction (Some (txt "f"))
      (Some [ {| direction := None; name := Some (txt "a"); type := Some (txt "INT") |} ])
      (Some (txt "INT")) (Some (txt "SQL")) (Some (txt "RETURN a;")) None
    = Ok sql.
Proof.
  apply (proj2 (createFunction_succeeds_iff (Some (txt "f"))
                  (Some [ {| direction := None; name := Some (txt "a");
                             type := Some (txt "INT") |} ])
                  (Some (txt "INT")) (Some (txt "SQL")) (Some (txt "RETURN a;")) None)).
  repeat split; try (eexists; split; [reflexivity|discriminate]).
  eexists. split; [reflexivity|]. repeat constructor. discriminate.
Defined.

Lemma createFunction_text_witness :
  QueryGenerator.createFunction (Some (txt "f")) (Some []) (Some (txt "INT"))
    (Some (txt "SQL"))
    (Some [ "a"%char; nl; "b"%char ]) None
  = Ok (txt "CREATE FUNCTION f()" ++ [nl] ++ txt "        RETURNS INT" ++ [nl]
          ++ txt "        " ++ [nl] ++ txt "      BEGIN" ++ [nl]
          ++ txt "        a" ++ [nl; tab] ++ txt "b" ++ [nl] ++ txt "      END;").
Proof.
  refine (createFunction_text (txt "f") (txt "INT") (txt "SQL")
            [ "a"%char; nl; "b"%char ] [] None _ _ _ _ _);
    try discriminate. constructor.
Defined.

Lemma createFunction_never_silent_witness :
  let run :=
    QueryInterface.createFunction (QG := MySQLQueryGenerator Backticks)
      (scripted [Ok []; Throw (ExecutionError (txt "syntax"))])
      (Some (txt "f")) (Some []) (Some (txt "INT")) (Some (txt "SQL"))
      (Some (txt "RETURN 1;")) None [] in
  starts_with (txt "CREATE FUNCTION ")
    (txt "CREATE FUNCTION f()" ++ [nl] ++ txt "        RETURNS INT" ++ [nl]
       ++ txt "        " ++ [nl] ++ txt "      BEGIN" ++ [nl]
       ++ txt "        RETURN 1;" ++ [nl] ++ txt "      END;") = true
  /\ (exists rest, snd run = [] ++ txt "DELIMITER __END_FUNCTION__;" :: rest)
  /\ fst run <> Ok None.
Proof.
  exact (createFunction_never_silent (G := Backticks)
           (scripted [Ok []; Throw (ExecutionError (txt "syntax"))])
           (Some (txt "f")) (Some []) (Some (txt "INT")) (Some (txt "SQL"))
           (Some (txt "RETURN 1;")) None []).
Defined.






End FurtherRuns.
